(** * Mark granularity of MergeTree parts

    A shallow embedding of
    [src/Storages/MergeTree/MergeTreeIndexGranularity.cpp]: the policy
    function [computeIndexGranularityForBlock], the factory
    [createMergeTreeIndexGranularity], and the non-virtual members of the
    abstract class [MergeTreeIndexGranularity], which are written in terms
    of the virtual members that the two table classes implement.

    Conventions.
    - [size_t] is an unsigned 64-bit integer: a [Z] in [0, 2^64), the
      wrap-around of [+] and [-] written out with [wrap].
    - An unsigned division whose divisor is zero has no defined result in
      C++; the policy function is therefore a partial function, [None]
      standing for "no defined result".
    - A member that may throw returns an [outcome]; a member that mutates
      the table maps the table to an outcome paired with the table it
      leaves behind, so that what a throwing call did to the object is
      still visible.

    Beside the granularity code the file embeds the integer members of
    [HashTableGrowerWithMaxLoadFactor]
    ([src/Dictionaries/HashedDictionaryCollectionType.h]) and the two
    workers of the [transposeBits] function ([src/unnamed/part_000]). *)

From Stdlib Require Import ZArith String List Bool Lia Permutation.
Import ListNotations.
Local Open Scope Z_scope.

(** ** Machine integers *)

Module Size.

Definition modulus : Z := 2 ^ 64.

(** The values a [size_t] can hold. *)
Definition in_range (x : Z) : Prop := 0 <= x < modulus.

(** Reduction of a mathematical result to the value the machine keeps. *)
Definition wrap (x : Z) : Z := x mod modulus.

(** [a / b] on [size_t]; dividing by zero has no defined result. *)
Definition div (a b : Z) : option Z :=
  if b =? 0 then None else Some (a / b).

End Size.

(** Sequencing of partial computations. *)
Definition obind {A B : Type} (c : option A) (k : A -> option B) : option B :=
  match c with
  | Some a => k a
  | None => None
  end.

Notation "x <-? c ;; k" := (obind c (fun x => k))
  (at level 61, c at next level, right associativity).

(** ** GranularityPolicy: [computeIndexGranularityForBlock] *)

Definition computeIndexGranularityForBlock
    (rows_in_block bytes_in_block index_granularity_bytes
     fixed_index_granularity_rows : Z)
    (blocks_are_granules can_use_adaptive_index_granularity : bool)
    : option Z :=
  index_granularity_for_block <-?
    (if negb can_use_adaptive_index_granularity then
       Some fixed_index_granularity_rows
     else if blocks_are_granules then
       Some rows_in_block
     else if index_granularity_bytes <=? bytes_in_block then
       granules_in_block <-? Size.div bytes_in_block index_granularity_bytes ;;
       Size.div rows_in_block granules_in_block
     else
       bytes_per_row <-? Size.div bytes_in_block rows_in_block ;;
       let size_of_row_in_bytes := Z.max bytes_per_row 1 in
       Size.div index_granularity_bytes size_of_row_in_bytes) ;;
  (* We should be less or equal than fixed index granularity, but a block
     that is itself a granule is not adjusted. *)
  let index_granularity_for_block :=
    if negb blocks_are_granules then
      Z.min fixed_index_granularity_rows index_granularity_for_block
    else index_granularity_for_block in
  (* Very rare case when index granularity bytes less than single row. *)
  let index_granularity_for_block :=
    if index_granularity_for_block =? 0 then 1
    else index_granularity_for_block in
  Some index_granularity_for_block.

(** The value before clamping and flooring, as the four branches compute
    it. *)
Definition unclamped_granularity
    (rows_in_block bytes_in_block index_granularity_bytes
     fixed_index_granularity_rows : Z)
    (blocks_are_granules can_use_adaptive_index_granularity : bool)
    : option Z :=
  if negb can_use_adaptive_index_granularity then
    Some fixed_index_granularity_rows
  else if blocks_are_granules then
    Some rows_in_block
  else if index_granularity_bytes <=? bytes_in_block then
    granules_in_block <-? Size.div bytes_in_block index_granularity_bytes ;;
    Size.div rows_in_block granules_in_block
  else
    bytes_per_row <-? Size.div bytes_in_block rows_in_block ;;
    Size.div index_granularity_bytes (Z.max bytes_per_row 1).

(** The inputs at which every division the function reaches has a non-zero
    divisor. *)
Definition divisions_defined
    (rows_in_block bytes_in_block index_granularity_bytes : Z)
    (blocks_are_granules can_use_adaptive_index_granularity : bool) : Prop :=
  can_use_adaptive_index_granularity = false
  \/ blocks_are_granules = true
  \/ (index_granularity_bytes <> 0
      /\ (index_granularity_bytes <= bytes_in_block \/ rows_in_block <> 0)).

(** ** GranularityTableFactory: [createMergeTreeIndexGranularity] *)

(** Modelled from the spec: [MergeTreeDataPartType.h] is not among the
    sources.  The factory only tests a part type against [Compact], "the
    compact layout" of the specification; [Other] stands for every other
    storage layout. *)
Inductive MergeTreeDataPartType : Type :=
| Compact
| Other.

Definition MergeTreeDataPartType_eqb (a b : MergeTreeDataPartType) : bool :=
  match a, b with
  | Compact, Compact | Other, Other => true
  | _, _ => false
  end.

(** The two members of [info.mark_type] the factory reads. *)
Record MarkType : Type := {
  adaptive : bool;
  part_type : MergeTreeDataPartType
}.

Record MergeTreeIndexGranularityInfo : Type := {
  mark_type : MarkType
}.

(** The three settings the factory reads. *)
Record MergeTreeSettings : Type := {
  index_granularity : Z;
  index_granularity_bytes : Z;
  use_const_adaptive_granularity : bool
}.

(** What the factory hands back: the object built by one of its two
    [std::make_shared] calls, named by the class and the constructor
    arguments. *)
Inductive MergeTreeIndexGranularityPtr : Type :=
| make_shared_Adaptive
| make_shared_Constant (constant_granularity_ : Z).

Definition createMergeTreeIndexGranularity
    (rows_in_block bytes_in_block : Z)
    (settings : MergeTreeSettings) (info : MergeTreeIndexGranularityInfo)
    (blocks_are_granules : bool) : option MergeTreeIndexGranularityPtr :=
  let use_adaptive_granularity := adaptive (mark_type info) in
  let use_const_adaptive_granularity_ := use_const_adaptive_granularity settings in
  let is_compact_part :=
    MergeTreeDataPartType_eqb (part_type (mark_type info)) Compact in
  if blocks_are_granules
     || is_compact_part
     || (use_adaptive_granularity && negb use_const_adaptive_granularity_)
  then
    Some make_shared_Adaptive
  else
    computed_granularity <-?
      computeIndexGranularityForBlock
        rows_in_block bytes_in_block
        (index_granularity_bytes settings) (index_granularity settings)
        blocks_are_granules use_adaptive_granularity ;;
    Some (make_shared_Constant computed_granularity).

(** The three situations in which the specification asks for an adaptive
    table. *)
Definition adaptive_table_wanted
    (settings : MergeTreeSettings) (info : MergeTreeIndexGranularityInfo)
    (blocks_are_granules : bool) : Prop :=
  blocks_are_granules = true
  \/ part_type (mark_type info) = Compact
  \/ (adaptive (mark_type info) = true
      /\ use_const_adaptive_granularity settings = false).

(** ** Exceptions *)

Inductive ErrorCode : Type :=
| LOGICAL_ERROR.

Record Exception : Type := mkException {
  code : ErrorCode;
  message : string
}.

Inductive outcome (A : Type) : Type :=
| Ok (a : A)
| Throw (e : Exception).

Arguments Ok {A} a.
Arguments Throw {A} e.

Definition bind {A B : Type} (c : outcome A) (k : A -> outcome B) : outcome B :=
  match c with
  | Ok a => k a
  | Throw e => Throw e
  end.

Notation "x <-! c ;; k" := (bind c (fun x => k))
  (at level 61, c at next level, right associativity).

(** A member function that may change the table: the outcome of the call,
    and the table as the call leaves it (also when it throws). *)
Definition mutation (T : Type) : Type := T -> outcome unit * T.

(** A [const] call followed by a mutating one: when the first throws, the
    table is as it was. *)
Definition and_then {A T : Type} (c : T -> outcome A) (k : A -> mutation T)
    : mutation T :=
  fun t =>
    match c t with
    | Ok a => k a t
    | Throw e => (Throw e, t)
    end.

(** The mathematical sum of a sequence of row counts. *)
Definition total_of (rows : list Z) : Z := fold_right Z.add 0 rows.

(** ** GranularityTable: the abstract class [MergeTreeIndexGranularity] *)

Record MarkRange : Type := {
  range_begin : Z;
  range_end : Z
}.

Definition MarkRanges : Type := list MarkRange.

(** The virtual members the code under study calls; their bodies belong to
    the two table classes.  [T] is the state of a table object.  The only
    law is a typing fact: [getMarksCount] returns a [size_t]. *)
Class MergeTreeIndexGranularity (T : Type) : Type := {
  getRowsCountInRange : T -> Z -> Z -> outcome Z;
  getMarksCount : T -> Z;
  getTotalRows : T -> Z;
  getMarkRows : T -> Z -> outcome Z;
  hasFinalMark : T -> bool;
  appendMark : Z -> mutation T;
  adjustLastMark : Z -> mutation T;
  getMarksCount_size_t : forall t, Size.in_range (getMarksCount t)
}.

Definition cannot_add_rows_to_final_mark : Exception :=
  mkException LOGICAL_ERROR "Cannot add rows to final mark".

Section BaseClass.

Context {T : Type} `{MergeTreeIndexGranularity T}.

(** Modelled from the spec: [empty()] is declared in
    [MergeTreeIndexGranularity.h], which is not among the sources; "the
    table is currently empty" is read as "it has no mark". *)
Definition empty (t : T) : bool := getMarksCount t =? 0.

Definition getRowsCountInRange_MarkRange (t : T) (range : MarkRange) : outcome Z :=
  getRowsCountInRange t (range_begin range) (range_end range).

(** The [for] loop of [getRowsCountInRanges], [total] being the local
    variable of that name. *)
Fixpoint getRowsCountInRanges_from (t : T) (ranges : MarkRanges) (total : Z)
    : outcome Z :=
  match ranges with
  | [] => Ok total
  | range :: rest =>
      rows <-! getRowsCountInRange_MarkRange t range ;;
      getRowsCountInRanges_from t rest (Size.wrap (total + rows))
  end.

Definition getRowsCountInRanges (t : T) (ranges : MarkRanges) : outcome Z :=
  getRowsCountInRanges_from t ranges 0.

Definition getMarksCountWithoutFinal (t : T) : Z :=
  let total := getMarksCount t in
  if total =? 0 then total
  else Size.wrap (total - Z.b2z (hasFinalMark t)).

Definition getLastMarkRows (t : T) : outcome Z :=
  getMarkRows t (Size.wrap (getMarksCount t - 1)).

Definition getLastNonFinalMarkRows (t : T) : outcome Z :=
  last_mark_rows <-! getLastMarkRows t ;;
  if negb (last_mark_rows =? 0) then Ok last_mark_rows
  else getMarkRows t (Size.wrap (getMarksCount t - 2)).

Definition addRowsToLastMark (rows_count : Z) : mutation T :=
  fun t =>
    if hasFinalMark t then
      (Throw cannot_add_rows_to_final_mark, t)
    else if empty t then
      appendMark rows_count t
    else
      and_then getLastMarkRows
        (fun last_mark_rows =>
           adjustLastMark (Size.wrap (last_mark_rows + rows_count))) t.

(** A mark index the table has a mark for. *)
Definition mark_index_in_range (t : T) (mark_index : Z) : Prop :=
  0 <= mark_index < getMarksCount t.

End BaseClass.

(** ** A table to run the base class on *)

(** Modelled from the spec: [MergeTreeIndexGranularityAdaptive] is not
    among the sources.  Following sections 3, 4.2 and 4.4 of the
    specification the table is the explicit sequence of per-mark row
    counts; [appendMark] pushes an entry, [adjustLastMark] overwrites the
    last one, a final mark is a trailing zero-row mark, and a mark index or
    range outside the table is a logical error. *)
Record MergeTreeIndexGranularityAdaptive : Type := {
  marks_rows : list Z
}.

Module Adaptive.

Definition out_of_range : Exception :=
  mkException LOGICAL_ERROR "Mark index is out of range".

Definition no_mark_to_adjust : Exception :=
  mkException LOGICAL_ERROR "No mark to adjust".

Definition size (t : MergeTreeIndexGranularityAdaptive) : Z :=
  Z.of_nat (length (marks_rows t)).

Definition getMarksCount (t : MergeTreeIndexGranularityAdaptive) : Z :=
  Size.wrap (size t).

Definition getTotalRows (t : MergeTreeIndexGranularityAdaptive) : Z :=
  Size.wrap (total_of (marks_rows t)).

Definition getMarkRows (t : MergeTreeIndexGranularityAdaptive) (mark_index : Z)
    : outcome Z :=
  if (0 <=? mark_index) && (mark_index <? size t) then
    Ok (nth (Z.to_nat mark_index) (marks_rows t) 0)
  else Throw out_of_range.

Definition getRowsCountInRange
    (t : MergeTreeIndexGranularityAdaptive) (begin_ end_ : Z) : outcome Z :=
  if (0 <=? begin_) && (begin_ <=? end_) && (end_ <=? size t) then
    Ok (Size.wrap
          (total_of (firstn (Z.to_nat (end_ - begin_))
                  (skipn (Z.to_nat begin_) (marks_rows t)))))
  else Throw out_of_range.

Definition hasFinalMark (t : MergeTreeIndexGranularityAdaptive) : bool :=
  match rev (marks_rows t) with
  | last_mark_rows :: _ => last_mark_rows =? 0
  | [] => false
  end.

Definition appendMark (rows_count : Z)
    : mutation MergeTreeIndexGranularityAdaptive :=
  fun t => (Ok tt, {| marks_rows := marks_rows t ++ [rows_count] |}).

Definition adjustLastMark (rows_count : Z)
    : mutation MergeTreeIndexGranularityAdaptive :=
  fun t =>
    match marks_rows t with
    | [] => (Throw no_mark_to_adjust, t)
    | _ :: _ =>
        (Ok tt, {| marks_rows := removelast (marks_rows t) ++ [rows_count] |})
    end.

End Adaptive.

#[export] Instance Adaptive_table
    : MergeTreeIndexGranularity MergeTreeIndexGranularityAdaptive := {
  getRowsCountInRange := Adaptive.getRowsCountInRange;
  getMarksCount := Adaptive.getMarksCount;
  getTotalRows := Adaptive.getTotalRows;
  getMarkRows := Adaptive.getMarkRows;
  hasFinalMark := Adaptive.hasFinalMark;
  appendMark := Adaptive.appendMark;
  adjustLastMark := Adaptive.adjustLastMark;
  getMarksCount_size_t := fun t =>
    Z.mod_pos_bound (Adaptive.size t) Size.modulus eq_refl
}.

(** ** Sample tables *)

(** A sealed part: two data marks and the final mark. *)
Definition sealed_table : MergeTreeIndexGranularityAdaptive :=
  {| marks_rows := [8192; 100; 0] |}.

(** A part being written: two data marks, no final mark yet. *)
Definition growing_table : MergeTreeIndexGranularityAdaptive :=
  {| marks_rows := [8192; 100] |}.

(** A table that has just been created. *)
Definition fresh_table : MergeTreeIndexGranularityAdaptive :=
  {| marks_rows := [] |}.

(** Settings and mark format of a wide part whose granularity is adaptive
    but forced to be constant. *)
Definition wide_part_settings : MergeTreeSettings :=
  {| index_granularity := 8192;
     index_granularity_bytes := 10485760;
     use_const_adaptive_granularity := true |}.

Definition wide_adaptive_part : MergeTreeIndexGranularityInfo :=
  {| mark_type := {| adaptive := true; part_type := Other |} |}.

(** The rows a range of the table covers, 0 standing in where the count
    throws. *)
Definition counted_rows {T : Type} `{MergeTreeIndexGranularity T}
    (t : T) (range : MarkRange) : Z :=
  match getRowsCountInRange_MarkRange t range with
  | Ok rows => rows
  | Throw _ => 0
  end.

(** The ranges of the table whose count is returned. *)
Definition counted {T : Type} `{MergeTreeIndexGranularity T}
    (t : T) (range : MarkRange) : Prop :=
  exists rows, getRowsCountInRange_MarkRange t range = Ok rows.

(** ** The grower of the hashed dictionaries' tables

    [HashTableGrowerWithMaxLoadFactor] of
    [src/Dictionaries/HashedDictionaryCollectionType.h].  The load factor
    is a [float]; the embedding keeps it abstract, together with the one
    operation the class applies to it, and models every member that is
    integer arithmetic.  [set] and [setBufSize] go through the
    floating-point [log2] and are left out. *)

Module Grower.

Section WithLoadFactor.

(** The type [float], the constant [0.5], and
    [static_cast<size_t>(n * f)] for a [size_t] [n] and a [float] [f]:
    the conversion has no defined result when the product is not a
    number, is negative or does not fit a [size_t]. *)
Variable float : Type.
Variable one_half : float.
Variable fill_of : Z -> float -> option Z.

Record HashTableGrowerWithMaxLoadFactor : Type := {
  size_degree : Z;
  precalculated_mask : Z;
  precalculated_max_fill : Z;
  max_load_factor : float
}.

Definition initial_size_degree : Z := 8.

Definition max_size_degree_quadratic : Z := 19.

(** [1ULL << degree]; shifting a 64-bit value by 64 or more has no defined
    result. *)
Definition one_shifted (degree : Z) : option Z :=
  if (0 <=? degree) && (degree <? 64) then Some (Z.shiftl 1 degree) else None.

(** The value of [UInt8 x; x += delta]. *)
Definition add_UInt8 (x delta : Z) : Z := (x + delta) mod 256.

(** The default member initialisers, which the default constructor
    leaves as they are. *)
Definition default_grower : HashTableGrowerWithMaxLoadFactor :=
  {| size_degree := initial_size_degree;
     precalculated_mask := Z.shiftl 1 initial_size_degree - 1;
     precalculated_max_fill := Z.shiftl 1 (initial_size_degree - 1);
     max_load_factor := one_half |}.

Definition increaseSizeDegree (delta : Z) (g : HashTableGrowerWithMaxLoadFactor)
    : option HashTableGrowerWithMaxLoadFactor :=
  let size_degree_ := add_UInt8 (size_degree g) delta in
  cells <-? one_shifted size_degree_ ;;
  max_fill <-? fill_of cells (max_load_factor g) ;;
  Some {| size_degree := size_degree_;
          precalculated_mask := cells - 1;
          precalculated_max_fill := max_fill;
          max_load_factor := max_load_factor g |}.

(** [explicit HashTableGrowerWithMaxLoadFactor(float max_load_factor_)]. *)
Definition with_max_load_factor (max_load_factor_ : float)
    : option HashTableGrowerWithMaxLoadFactor :=
  increaseSizeDegree 0
    {| size_degree := size_degree default_grower;
       precalculated_mask := precalculated_mask default_grower;
       precalculated_max_fill := precalculated_max_fill default_grower;
       max_load_factor := max_load_factor_ |}.

Definition sizeDegree (g : HashTableGrowerWithMaxLoadFactor) : Z :=
  size_degree g.

Definition bufSize (g : HashTableGrowerWithMaxLoadFactor) : option Z :=
  one_shifted (size_degree g).

Definition place (g : HashTableGrowerWithMaxLoadFactor) (x : Z) : Z :=
  Z.land x (precalculated_mask g).

Definition next (g : HashTableGrowerWithMaxLoadFactor) (pos : Z) : Z :=
  Z.land (Size.wrap (pos + 1)) (precalculated_mask g).

Definition overflow (g : HashTableGrowerWithMaxLoadFactor) (elems : Z) : bool :=
  precalculated_max_fill g <? elems.

Definition increaseSize (g : HashTableGrowerWithMaxLoadFactor)
    : option HashTableGrowerWithMaxLoadFactor :=
  increaseSizeDegree
    (if max_size_degree_quadratic <=? size_degree g then 1 else 2) g.

(** What the members set up and rely on: the degree is a shift the
    machine defines, and the mask selects the low [size_degree] bits. *)
Definition consistent (g : HashTableGrowerWithMaxLoadFactor) : Prop :=
  0 <= size_degree g < 64
  /\ precalculated_mask g = 2 ^ size_degree g - 1.

(** [increaseSize] called [times] times in a row. *)
Fixpoint grow (times : nat) (g : HashTableGrowerWithMaxLoadFactor)
    : option HashTableGrowerWithMaxLoadFactor :=
  match times with
  | O => Some g
  | S times' => g' <-? increaseSize g ;; grow times' g'
  end.

End WithLoadFactor.

Arguments size_degree {float} _.
Arguments precalculated_mask {float} _.
Arguments precalculated_max_fill {float} _.
Arguments max_load_factor {float} _.
Arguments sizeDegree {float} g.
Arguments bufSize {float} g.
Arguments place {float} g x.
Arguments next {float} g pos.
Arguments overflow {float} g elems.
Arguments consistent {float} g.

End Grower.

(** ** [transposeBits] on arrays of a type other than [Float32] and [Float64]

    [FunctionTransposeBits::executeGeneric] of [src/unnamed/part_000].  A
    column of arrays is its flattened data together with the offset at
    which each array ends. *)

Module TransposeBits.

(** [static_cast<ssize_t>] of a [size_t]. *)
Definition to_ssize (x : Z) : Z :=
  if x <? 2 ^ 63 then x else x - Size.modulus.

Section Generic.

Variable A : Type.

(** [res_data.insertFrom(src_data, n)]; an [n] past the end of the source
    has no defined result. *)
Definition insertFrom (res src : list A) (n : Z) : option (list A) :=
  x <-? nth_error src (Z.to_nat n) ;; Some (res ++ [x]).

(** The [while] loop of [executeGeneric].  [steps] bounds the number of
    iterations; the loop is run with the number it needs. *)
Fixpoint insert_backwards (steps : nat) (src : list A)
    (src_index src_prev_offset : Z) (res : list A) : option (list A) :=
  if src_index >=? to_ssize src_prev_offset then
    match steps with
    | O => None
    | S steps' =>
        res' <-? insertFrom res src (Size.wrap src_index) ;;
        insert_backwards steps' src (src_index - 1) src_prev_offset res'
    end
  else Some res.

(** The [for] loop of [executeGeneric]. *)
Fixpoint executeGeneric_from (src : list A) (src_array_offsets : list Z)
    (src_prev_offset : Z) (res : list A) : option (list A) :=
  match src_array_offsets with
  | [] => Some res
  | offset :: rest =>
      let src_index := to_ssize (Size.wrap (offset - 1)) in
      res' <-?
        insert_backwards
          (Z.to_nat (src_index - to_ssize src_prev_offset + 1))
          src src_index src_prev_offset res ;;
      executeGeneric_from src rest offset res'
  end.

(** [executeGeneric]: the data it leaves in [res_data] (it always returns
    [true]). *)
Definition executeGeneric (src : list A) (src_array_offsets : list Z)
    (res : list A) : option (list A) :=
  executeGeneric_from src src_array_offsets 0 res.

(** The offsets of a column holding [arrays], the first of them starting
    at [start]. *)
Fixpoint offsets_from (start : Z) (arrays : list (list A)) : list Z :=
  match arrays with
  | [] => []
  | array :: rest =>
      let offset := start + Z.of_nat (length array) in
      offset :: offsets_from offset rest
  end.

Definition offsets_of (arrays : list (list A)) : list Z :=
  offsets_from 0 arrays.

End Generic.

Arguments insertFrom {A} res src n.
Arguments insert_backwards {A} steps src src_index src_prev_offset res.
Arguments executeGeneric_from {A} src src_array_offsets src_prev_offset res.
Arguments executeGeneric {A} src src_array_offsets res.
Arguments offsets_from {A} start arrays.
Arguments offsets_of {A} arrays.

End TransposeBits.

(** ** [transposeBits] on arrays of [Float32] and [Float64]

    [FunctionTransposeBits::executeNumber<T>] of [src/unnamed/part_000]
    on a column that is a [ColumnVector<T>]; the function of
    [src/Functions/array/transposeBits.cpp] has the same loops and spells
    out the 32-bit and the 64-bit case.  An element is its bit pattern, [numbits] is
    [sizeof(T) * 8].  The result vector is given as [resize] leaves it:
    as long as the source, its contents whatever the buffer held. *)

Module TransposeNumber.

(** [static_cast<int>] of a pointer difference. *)
Definition cast_int (x : Z) : Z := (x + 2 ^ 31) mod 2 ^ 32 - 2 ^ 31.

(** The result of an [int] addition or multiplication; outside the range
    of [int] it is not defined. *)
Definition int_result (x : Z) : option Z :=
  if (- 2 ^ 31 <=? x) && (x <? 2 ^ 31) then Some x else None.

(** [value << amount] on [uint64_t]. *)
Definition shift_left_64 (value amount : Z) : option Z :=
  if (0 <=? amount) && (amount <? 64)
  then Some (Z.shiftl value amount mod 2 ^ 64)
  else None.

(** [vec[i]] read; an index outside the vector has no defined result. *)
Definition element (vec : list Z) (i : Z) : option Z :=
  if 0 <=? i then nth_error vec (Z.to_nat i) else None.

(** [vec[i] = value] for an index of the vector. *)
Fixpoint store (vec : list Z) (i : nat) (value : Z) : list Z :=
  match vec, i with
  | [], _ => []
  | _ :: rest, O => value :: rest
  | x :: rest, S i' => x :: store rest i' value
  end.

(** A loop body run for every element of a list, first to last. *)
Fixpoint for_each {X S : Type} (xs : list X) (body : X -> S -> option S)
    (s : S) : option S :=
  match xs with
  | [] => Some s
  | x :: rest => s' <-? body x s ;; for_each rest body s'
  end.

(** The values [0, 1, ..., n - 1] of a counting loop. *)
Definition counting (n : Z) : list Z := map Z.of_nat (seq 0 (Z.to_nat n)).

Section WithBits.

Variable numbits : Z.

(** The body of the [for] loop over [j]: bit [j] of the current element
    is or-ed into the result. *)
Definition set_bit (src_vec : list Z) (src_prev_offset array_size : Z)
    (position j : Z) (res_vec : list Z) : option (list Z) :=
  let ind := cast_int position in
  product <-? int_result (j * array_size) ;;
  sum <-? int_result (ind + product) ;;
  let idx := Z.quot sum numbits in
  let nthbit := Z.rem sum numbits in
  curr <-? element src_vec (src_prev_offset + position) ;;
  let bit_to_set := Z.testbit curr j in
  tgt <-? element res_vec idx ;;
  shifted <-? shift_left_64 (Z.b2z bit_to_set) (numbits - 1 - nthbit) ;;
  Some (store res_vec (Z.to_nat idx) (Z.lor tgt shifted mod 2 ^ numbits)).

(** The body of the [while] loop: every bit of the element at
    [src + position]. *)
Definition set_bits_of (src_vec : list Z) (src_prev_offset array_size : Z)
    (position : Z) (res_vec : list Z) : option (list Z) :=
  for_each (counting numbits)
    (set_bit src_vec src_prev_offset array_size position) res_vec.

(** The body of the [for] loop over the arrays; the state is
    [src_prev_offset] and the result vector. *)
Definition transpose_array (src_vec : list Z) (offset : Z)
    (state : Z * list Z) : option (Z * list Z) :=
  let '(src_prev_offset, res_vec) := state in
  let array_size := cast_int (offset - src_prev_offset) in
  if (offset =? src_prev_offset) || (array_size =? 0) then
    Some (src_prev_offset, res_vec)
  else
    res_vec' <-?
      for_each (counting (offset - src_prev_offset))
        (set_bits_of src_vec src_prev_offset array_size) res_vec ;;
    Some (offset, res_vec').

Definition executeNumber (src_vec : list Z) (src_offsets : list Z)
    (res_vec : list Z) : option (list Z) :=
  state <-? for_each src_offsets (transpose_array src_vec) (0, res_vec) ;;
  Some (snd state).

(** The cell and the bit of the result that bit [j] of element [ind] of
    an array of [array_size] elements goes to. *)
Definition target_cell (array_size ind j : Z) : Z :=
  (ind + j * array_size) / numbits.

Definition target_bit (array_size ind j : Z) : Z :=
  numbits - 1 - (ind + j * array_size) mod numbits.

(** Whether bit [j] of element [ind] of the array at [src_prev_offset]
    sets bit [c] of cell [k] of the result. *)
Definition sets (src_vec : list Z) (src_prev_offset array_size : Z)
    (k : nat) (c : Z) (ind j : Z) : bool :=
  (target_cell array_size ind j =? Z.of_nat k)
  && (target_bit array_size ind j =? c)
  && Z.testbit (nth (Z.to_nat (src_prev_offset + ind)) src_vec 0) j.

(** Whether some bit of some element of that array sets bit [c] of cell
    [k]. *)
Definition array_sets (src_vec : list Z) (src_prev_offset array_size : Z)
    (k : nat) (c : Z) : bool :=
  existsb
    (fun position =>
       existsb (sets src_vec src_prev_offset array_size k c position)
         (counting numbits))
    (counting array_size).

(** [res'] is [res] with further bits set: as long, bit [c] of cell [k]
    set if it was or if [f k c] says so, and the cells from [bound] on as
    they were. *)
Definition accumulates (res res' : list Z) (f : nat -> Z -> bool)
    (bound : Z) : Prop :=
  length res' = length res
  /\ (forall k c,
        0 <= c < numbits ->
        Z.testbit (nth k res' 0) c = Z.testbit (nth k res 0) c || f k c)
  /\ (forall k, bound <= Z.of_nat k -> nth k res' 0 = nth k res 0).

End WithBits.

End TransposeNumber.

(** A grower to run the members on: the load factor is a number of
    hundredths, [fill_of] the truncated product where that is a
    [size_t]. *)
Definition percent_fill (cells hundredths : Z) : option Z :=
  let fill := cells * hundredths / 100 in
  if (0 <=? fill) && (fill <? Size.modulus) then Some fill else None.

Definition default_percent_grower : Grower.HashTableGrowerWithMaxLoadFactor Z :=
  Grower.default_grower Z 50.

(** * Properties *)

(** ** Machine arithmetic *)

Lemma Size_modulus_pos : 0 < Size.modulus.
Proof. reflexivity. Qed.

Lemma Size_wrap_in_range (x : Z) : Size.in_range (Size.wrap x).
Proof. unfold Size.in_range, Size.wrap. apply Z.mod_pos_bound, Size_modulus_pos. Qed.

Lemma Size_wrap_small (x : Z) : Size.in_range x -> Size.wrap x = x.
Proof. unfold Size.in_range, Size.wrap. intros Hx. now apply Z.mod_small. Qed.

Lemma Size_wrap_add_l (a b : Z) : Size.wrap (Size.wrap a + b) = Size.wrap (a + b).
Proof. unfold Size.wrap. now rewrite Zplus_mod_idemp_l. Qed.

(** Below zero the machine keeps the result shifted up by [2^64]. *)
Lemma Size_wrap_borrow (x : Z) :
  - Size.modulus <= x < 0 -> Size.wrap x = x + Size.modulus.
Proof.
  unfold Size.wrap. intros Hx.
  symmetry. apply (Z.mod_unique_pos _ _ (-1)); lia.
Qed.

Lemma Size_div_some (a b : Z) : b <> 0 -> Size.div a b = Some (a / b).
Proof.
  intros Hb. unfold Size.div.
  destruct (Z.eqb_spec b 0) as [E | _]; [contradiction | reflexivity].
Qed.

Lemma Size_div_inv (a b q : Z) : Size.div a b = Some q -> b <> 0 /\ q = a / b.
Proof.
  unfold Size.div. destruct (Z.eqb_spec b 0) as [E | E]; [discriminate |].
  intros [= <-]. now split.
Qed.

Lemma Size_div_nonneg (a b q : Z) :
  0 <= a -> 0 <= b -> Size.div a b = Some q -> 0 <= q.
Proof.
  intros Ha Hb Hq. apply Size_div_inv in Hq as [Hb0 ->].
  apply Z.div_pos; lia.
Qed.

(** ** GranularityPolicy *)

Lemma computeIndexGranularityForBlock_inv rows bytes igb fixed bag adaptive g :
  computeIndexGranularityForBlock rows bytes igb fixed bag adaptive = Some g ->
  exists x,
    unclamped_granularity rows bytes igb fixed bag adaptive = Some x
    /\ g = (let y := if negb bag then Z.min fixed x else x in
            if y =? 0 then 1 else y).
Proof.
  unfold computeIndexGranularityForBlock, unclamped_granularity, obind.
  intros Hg.
  destruct adaptive, bag; cbn [negb] in *;
    repeat match type of Hg with
           | context [if ?c then _ else _] => destruct c eqn:?
           | context [match ?c with Some _ => _ | None => _ end] =>
               destruct c eqn:?
           end;
    try discriminate; injection Hg as <-; eexists; split; try reflexivity;
    cbn; rewrite ?Heqb, ?Heqb0, ?Heqb1; reflexivity.
Qed.

Lemma unclamped_granularity_nonneg rows bytes igb fixed bag adaptive x :
  0 <= rows -> 0 <= bytes -> 0 <= igb -> 0 <= fixed ->
  unclamped_granularity rows bytes igb fixed bag adaptive = Some x ->
  0 <= x.
Proof.
  intros Hrows Hbytes Higb Hfixed.
  unfold unclamped_granularity, obind.
  destruct adaptive, bag; cbn [negb]; try (intros [= <-]; assumption).
  destruct (igb <=? bytes).
  - destruct (Size.div bytes igb) as [granules |] eqn:Hgranules; [| discriminate].
    intros Hx.
    apply (Size_div_nonneg rows granules); try assumption.
    apply (Size_div_nonneg bytes igb); assumption.
  - destruct (Size.div bytes rows) as [per_row |] eqn:Hper_row; [| discriminate].
    intros Hx.
    apply (Size_div_nonneg igb (Z.max per_row 1)); try assumption; lia.
Qed.

Lemma unclamped_granularity_defined rows bytes igb fixed bag adaptive :
  0 <= bytes -> 0 <= igb ->
  divisions_defined rows bytes igb bag adaptive <->
  exists x, unclamped_granularity rows bytes igb fixed bag adaptive = Some x.
Proof.
  intros Hbytes Higb.
  unfold divisions_defined, unclamped_granularity, obind.
  destruct adaptive, bag; cbn [negb];
    try (split; [intros _; eexists; reflexivity | intros _; auto]).
  destruct (Z.leb_spec igb bytes) as [Hle | Hlt].
  - split.
    + intros [Hc | [Hc | [Hnz _]]]; try discriminate.
      rewrite (Size_div_some bytes igb Hnz).
      assert (1 <= bytes / igb) by (apply Z.div_le_lower_bound; lia).
      rewrite Size_div_some by lia. eexists; reflexivity.
    + intros [x Hx]. right; right.
      destruct (Size.div bytes igb) as [granules |] eqn:Hgranules;
        [| discriminate].
      apply Size_div_inv in Hgranules as [Hnz _]. split; [assumption | lia].
  - split.
    + intros [Hc | [Hc | [Hnz [Hle | Hrows]]]]; try discriminate; [lia |].
      rewrite (Size_div_some bytes rows Hrows).
      rewrite Size_div_some by lia. eexists; reflexivity.
    + intros [x Hx]. right; right.
      destruct (Size.div bytes rows) as [per_row |] eqn:Hper_row;
        [| discriminate].
      apply Size_div_inv in Hper_row as [Hnz _]. split; [lia | now right].
Qed.

Lemma computeIndexGranularityForBlock_unclamped rows bytes igb fixed bag adaptive x :
  unclamped_granularity rows bytes igb fixed bag adaptive = Some x ->
  computeIndexGranularityForBlock rows bytes igb fixed bag adaptive
  = Some (let y := if negb bag then Z.min fixed x else x in
          if y =? 0 then 1 else y).
Proof.
  unfold computeIndexGranularityForBlock, unclamped_granularity.
  intros ->. reflexivity.
Qed.

Lemma computeIndexGranularityForBlock_none rows bytes igb fixed bag adaptive :
  unclamped_granularity rows bytes igb fixed bag adaptive = None ->
  computeIndexGranularityForBlock rows bytes igb fixed bag adaptive = None.
Proof.
  unfold computeIndexGranularityForBlock, unclamped_granularity.
  intros ->. reflexivity.
Qed.

(** C1, as the code has it: [computeIndexGranularityForBlock] returns a
    value exactly at the inputs where every division it reaches has a
    non-zero divisor (adaptive mode disabled, or the block is a granule, or
    [index_granularity_bytes] is non-zero and either [bytes_in_block]
    reaches it or [rows_in_block] is non-zero); whenever it returns, the
    value is at least 1; and with adaptive mode enabled, the block not a
    granule and [index_granularity_bytes] zero it divides by zero and
    returns nothing. *)
Theorem computeIndexGranularityForBlock_at_least_one
    rows bytes igb fixed bag adaptive :
  Size.in_range rows -> Size.in_range bytes ->
  Size.in_range igb -> Size.in_range fixed ->
  (divisions_defined rows bytes igb bag adaptive <->
   exists g,
     computeIndexGranularityForBlock rows bytes igb fixed bag adaptive = Some g)
  /\ (forall g,
        computeIndexGranularityForBlock rows bytes igb fixed bag adaptive = Some g ->
        1 <= g)
  /\ (adaptive = true -> bag = false -> igb = 0 ->
      computeIndexGranularityForBlock rows bytes igb fixed bag adaptive = None).
Proof.
  intros [Hrows _] [Hbytes _] [Higb _] [Hfixed _].
  split; [| split].
  - rewrite (unclamped_granularity_defined rows bytes igb fixed) by assumption.
    split.
    + intros [x Hx]. eexists.
      apply computeIndexGranularityForBlock_unclamped, Hx.
    + intros [g Hg].
      apply computeIndexGranularityForBlock_inv in Hg as [x [Hx _]].
      now exists x.
  - intros g Hg.
    apply computeIndexGranularityForBlock_inv in Hg as [x [Hx ->]].
    apply unclamped_granularity_nonneg in Hx; try assumption.
    cbv zeta.
    destruct (Z.eqb_spec (if negb bag then Z.min fixed x else x) 0) as [E | E];
      [lia |].
    destruct bag; cbn [negb] in *; lia.
  - intros -> -> ->.
    apply computeIndexGranularityForBlock_none.
    unfold unclamped_granularity. cbn [negb].
    destruct (Z.leb_spec 0 bytes) as [_ | Hneg]; [reflexivity | lia].
Qed.

(** C1, counterexample to "every input gives a value of at least 1": with
    adaptive mode enabled and [index_granularity_bytes = 0] the call
    divides [bytes_in_block] by zero and does not complete. *)
Lemma computeIndexGranularityForBlock_zero_threshold :
  computeIndexGranularityForBlock 1 1 0 1 false true = None.
Proof. reflexivity. Qed.

Lemma computeIndexGranularityForBlock_at_least_one_witness :
  (divisions_defined 2 10 100 false true <->
   exists g, computeIndexGranularityForBlock 2 10 100 50 false true = Some g)
  /\ (forall g,
        computeIndexGranularityForBlock 2 10 100 50 false true = Some g ->
        1 <= g)
  /\ (true = true -> false = false -> 100 = 0 ->
      computeIndexGranularityForBlock 2 10 100 50 false true = None).
Proof.
  apply (computeIndexGranularityForBlock_at_least_one 2 10 100 50 false true);
    unfold Size.in_range, Size.modulus; lia.
Defined.

(** C2, as the code has it: when the block is not forced to be one granule
    and the call returns, the result is at most
    [fixed_index_granularity_rows] whenever that ceiling is at least 1; a
    ceiling of 0 is floored afterwards, and the result is then 1. *)
Theorem computeIndexGranularityForBlock_clamped
    rows bytes igb fixed adaptive g :
  Size.in_range rows -> Size.in_range bytes ->
  Size.in_range igb -> Size.in_range fixed ->
  computeIndexGranularityForBlock rows bytes igb fixed false adaptive = Some g ->
  g <= Z.max fixed 1
  /\ (1 <= fixed -> g <= fixed)
  /\ (fixed = 0 -> g = 1).
Proof.
  intros [Hrows _] [Hbytes _] [Higb _] [Hfixed _] Hg.
  apply computeIndexGranularityForBlock_inv in Hg as [x [Hx ->]].
  apply unclamped_granularity_nonneg in Hx; try assumption.
  cbn [negb]. cbv zeta.
  destruct (Z.eqb_spec (Z.min fixed x) 0) as [E | E]; repeat split; lia.
Qed.

(** C2, counterexample to "the result never exceeds the ceiling": with a
    ceiling of 0 the clamp gives 0, the floor turns it into 1, and 1
    exceeds the ceiling. *)
Lemma computeIndexGranularityForBlock_zero_ceiling :
  computeIndexGranularityForBlock 100 1000 100 0 false true = Some 1
  /\ ~ 1 <= 0.
Proof. split; [reflexivity | lia]. Qed.

Lemma computeIndexGranularityForBlock_clamped_witness :
  computeIndexGranularityForBlock 2 10 100 50 false true = Some 20
  /\ 20 <= Z.max 50 1
  /\ (1 <= 50 -> 20 <= 50)
  /\ (50 = 0 -> 20 = 1).
Proof.
  split; [reflexivity |].
  apply (computeIndexGranularityForBlock_clamped 2 10 100 50 true 20);
    solve [unfold Size.in_range, Size.modulus; lia | reflexivity].
Defined.

(** C6: on 100 rows and 1000 bytes with a threshold of 100 bytes and a
    ceiling of 50 rows, adaptive mode takes the branch for blocks at or
    above the threshold: 1000/100 = 10 granules, 100/10 = 10 rows per
    granule, min(50, 10) = 10, and the function returns 10. *)
Theorem computeIndexGranularityForBlock_boundary_example :
  (100 <=? 1000) = true
  /\ Size.div 1000 100 = Some 10
  /\ Size.div 100 10 = Some 10
  /\ unclamped_granularity 100 1000 100 50 false true = Some 10
  /\ Z.min 50 10 = 10
  /\ computeIndexGranularityForBlock 100 1000 100 50 false true = Some 10.
Proof. repeat split. Qed.

(** The small-row test of the specification: 2 rows in 10 bytes. *)
Example computeIndexGranularityForBlock_small_rows :
  computeIndexGranularityForBlock 2 10 100 50 false true = Some 20.
Proof. reflexivity. Qed.

(** A threshold below the size of a row is floored to one row. *)
Example computeIndexGranularityForBlock_floor :
  computeIndexGranularityForBlock 4 1000 3 50 false true = Some 1.
Proof. reflexivity. Qed.

(** ** GranularityTableFactory *)

Lemma MergeTreeDataPartType_eqb_eq (a b : MergeTreeDataPartType) :
  MergeTreeDataPartType_eqb a b = true <-> a = b.
Proof. destruct a, b; cbn; split; congruence. Qed.

Lemma adaptive_table_wanted_decide settings info blocks_are_granules :
  adaptive_table_wanted settings info blocks_are_granules <->
  blocks_are_granules
  || MergeTreeDataPartType_eqb (part_type (mark_type info)) Compact
  || (adaptive (mark_type info) && negb (use_const_adaptive_granularity settings))
  = true.
Proof.
  unfold adaptive_table_wanted.
  rewrite !orb_true_iff, andb_true_iff, negb_true_iff,
    MergeTreeDataPartType_eqb_eq.
  tauto.
Qed.

(** C4, as the code has it: the factory builds an (empty,
    default-constructed) adaptive table exactly when [blocks_are_granules]
    is set, or the part is compact, or the mark format is adaptive and
    [use_const_adaptive_granularity] is not set.  In every other case it
    calls [computeIndexGranularityForBlock] on the block's rows and bytes
    and the [index_granularity_bytes] and [index_granularity] settings:
    where every division of that call is defined the factory returns a
    constant table built from the stride the call returns, and where the
    call divides by zero the factory has no defined result. *)
Theorem createMergeTreeIndexGranularity_choice
    rows_in_block bytes_in_block settings info blocks_are_granules :
  (createMergeTreeIndexGranularity
     rows_in_block bytes_in_block settings info blocks_are_granules
   = Some make_shared_Adaptive
   <-> adaptive_table_wanted settings info blocks_are_granules)
  /\ (~ adaptive_table_wanted settings info blocks_are_granules ->
      createMergeTreeIndexGranularity
        rows_in_block bytes_in_block settings info blocks_are_granules
      = option_map make_shared_Constant
          (computeIndexGranularityForBlock
             rows_in_block bytes_in_block
             (index_granularity_bytes settings) (index_granularity settings)
             false (adaptive (mark_type info))))
  /\ (~ adaptive_table_wanted settings info blocks_are_granules ->
      Size.in_range bytes_in_block ->
      Size.in_range (index_granularity_bytes settings) ->
      divisions_defined rows_in_block bytes_in_block
        (index_granularity_bytes settings) false (adaptive (mark_type info)) ->
      exists stride,
        computeIndexGranularityForBlock
          rows_in_block bytes_in_block
          (index_granularity_bytes settings) (index_granularity settings)
          false (adaptive (mark_type info)) = Some stride
        /\ createMergeTreeIndexGranularity
             rows_in_block bytes_in_block settings info blocks_are_granules
           = Some (make_shared_Constant stride))
  /\ (~ adaptive_table_wanted settings info blocks_are_granules ->
      Size.in_range bytes_in_block ->
      Size.in_range (index_granularity_bytes settings) ->
      ~ divisions_defined rows_in_block bytes_in_block
          (index_granularity_bytes settings) false (adaptive (mark_type info)) ->
      createMergeTreeIndexGranularity
        rows_in_block bytes_in_block settings info blocks_are_granules
      = None).
Proof.
  rewrite adaptive_table_wanted_decide.
  unfold createMergeTreeIndexGranularity. cbv zeta.
  destruct (blocks_are_granules
            || MergeTreeDataPartType_eqb (part_type (mark_type info)) Compact
            || (adaptive (mark_type info)
                && negb (use_const_adaptive_granularity settings))) eqn:Hif.
  - split; [tauto |]. repeat split; intros Hno; now contradiction Hno.
  - assert (blocks_are_granules = false) as ->
        by (destruct blocks_are_granules; [discriminate | reflexivity]).
    split; [| split; [| split]].
    + split; [| discriminate].
      destruct (computeIndexGranularityForBlock _ _ _ _ _ _); discriminate.
    + intros _.
      destruct (computeIndexGranularityForBlock _ _ _ _ _ _); reflexivity.
    + intros _ [Hbytes _] [Higb _] Hdefined.
      apply (unclamped_granularity_defined _ _ _ (index_granularity settings))
        in Hdefined as [x Hx]; try assumption.
      apply computeIndexGranularityForBlock_unclamped in Hx.
      rewrite Hx. eexists. split; reflexivity.
    + intros _ [Hbytes _] [Higb _] Hundefined.
      destruct (unclamped_granularity rows_in_block bytes_in_block
                  (index_granularity_bytes settings)
                  (index_granularity settings) false
                  (adaptive (mark_type info))) as [x |] eqn:Hx.
      * exfalso. apply Hundefined.
        apply (unclamped_granularity_defined _ _ _
                 (index_granularity settings)); try assumption.
        now exists x.
      * now rewrite (computeIndexGranularityForBlock_none _ _ _ _ _ _ Hx).
Qed.

(** C4, counterexample to "in every other case it returns a constant
    table": for a wide part with adaptive marks and constant-adaptive mode
    forced no adaptive table is built, and on a block without rows or
    bytes the policy divides 0 by 0, so the factory returns nothing. *)
Lemma createMergeTreeIndexGranularity_empty_block :
  createMergeTreeIndexGranularity 0 0 wide_part_settings wide_adaptive_part false
  = None
  /\ ~ adaptive_table_wanted wide_part_settings wide_adaptive_part false.
Proof.
  split; [reflexivity |].
  intros [Hc | [Hc | [_ Hc]]]; discriminate Hc.
Qed.

(** ** GranularityTable: the members of the base class *)

Section BaseClassFacts.

Context {T : Type} `{MergeTreeIndexGranularity T}.

Lemma empty_iff (t : T) : empty t = true <-> getMarksCount t = 0.
Proof. unfold empty. apply Z.eqb_eq. Qed.

(** [getMarksCount() - k] does not borrow when the table has [k] marks. *)
Lemma marks_count_minus (t : T) (k : Z) :
  0 <= k <= getMarksCount t ->
  Size.wrap (getMarksCount t - k) = getMarksCount t - k.
Proof.
  intros Hk. apply Size_wrap_small.
  pose proof (getMarksCount_size_t t) as Hrange.
  unfold Size.in_range in *. lia.
Qed.

(** With fewer than [k] marks the index wraps past every mark. *)
Lemma marks_count_minus_borrow (t : T) (k : Z) :
  getMarksCount t < k <= Size.modulus ->
  Size.wrap (getMarksCount t - k) = getMarksCount t - k + Size.modulus.
Proof.
  intros Hk. apply Size_wrap_borrow.
  pose proof (getMarksCount_size_t t) as Hrange.
  unfold Size.in_range in *. lia.
Qed.

Lemma marks_count_minus_in_range (t : T) (k : Z) :
  0 < k <= Size.modulus ->
  mark_index_in_range t (Size.wrap (getMarksCount t - k)) <->
  k <= getMarksCount t.
Proof.
  intros Hk. unfold mark_index_in_range.
  pose proof (getMarksCount_size_t t) as Hrange. unfold Size.in_range in Hrange.
  destruct (Z_lt_le_dec (getMarksCount t) k) as [Hlt | Hle].
  - rewrite marks_count_minus_borrow by lia. lia.
  - rewrite marks_count_minus by lia. lia.
Qed.

(** The body of [getMarksCountWithoutFinal], its subtraction carried out. *)
Lemma getMarksCountWithoutFinal_unfold (t : T) :
  getMarksCountWithoutFinal t
  = (if getMarksCount t =? 0 then 0
     else if hasFinalMark t then getMarksCount t - 1
     else getMarksCount t).
Proof.
  pose proof (getMarksCount_size_t t) as Hrange. unfold Size.in_range in Hrange.
  unfold getMarksCountWithoutFinal. cbv zeta.
  destruct (Z.eqb_spec (getMarksCount t) 0) as [E | E]; [assumption |].
  destruct (hasFinalMark t); cbn [Z.b2z].
  - apply marks_count_minus. lia.
  - rewrite Z.sub_0_r. apply Size_wrap_small. exact Hrange.
Qed.

(** C5: for every table, [getMarksCountWithoutFinal()] is
    [getMarksCount()] minus 1 if [hasFinalMark()] is true and
    [getMarksCount()] otherwise.  A table is what the data model says it
    is: its final mark, when it has one, is one of its marks. *)
Theorem getMarksCountWithoutFinal_value (t : T) :
  (hasFinalMark t = true -> getMarksCount t <> 0) ->
  (hasFinalMark t = true ->
   getMarksCountWithoutFinal t = getMarksCount t - 1)
  /\ (hasFinalMark t = false ->
      getMarksCountWithoutFinal t = getMarksCount t)
  /\ getMarksCountWithoutFinal t
     = getMarksCount t - (if hasFinalMark t then 1 else 0).
Proof.
  intros Hcounted.
  rewrite getMarksCountWithoutFinal_unfold.
  destruct (hasFinalMark t).
  - specialize (Hcounted eq_refl).
    destruct (Z.eqb_spec (getMarksCount t) 0) as [E | E]; [contradiction |].
    repeat split; try discriminate; lia.
  - destruct (Z.eqb_spec (getMarksCount t) 0) as [E | E];
      repeat split; try discriminate; lia.
Qed.

Lemma getMarksCountWithoutFinal_data_marks (t : T) :
  1 <= getMarksCountWithoutFinal t ->
  1 <= getMarksCount t /\ (hasFinalMark t = true -> 2 <= getMarksCount t).
Proof.
  rewrite getMarksCountWithoutFinal_unfold.
  destruct (Z.eqb_spec (getMarksCount t) 0) as [E | E]; [lia |].
  pose proof (getMarksCount_size_t t) as Hrange. unfold Size.in_range in Hrange.
  destruct (hasFinalMark t); intros Hdata; split; try discriminate; lia.
Qed.

Lemma getLastNonFinalMarkRows_nonzero (t : T) (r : Z) :
  getLastMarkRows t = Ok r -> r <> 0 -> getLastNonFinalMarkRows t = Ok r.
Proof.
  intros Hlast Hr. unfold getLastNonFinalMarkRows. rewrite Hlast. cbn [bind].
  destruct (Z.eqb_spec r 0) as [E | _]; [contradiction | reflexivity].
Qed.

Lemma getLastNonFinalMarkRows_zero (t : T) :
  getLastMarkRows t = Ok 0 ->
  getLastNonFinalMarkRows t = getMarkRows t (Size.wrap (getMarksCount t - 2)).
Proof.
  intros Hlast. unfold getLastNonFinalMarkRows. rewrite Hlast. reflexivity.
Qed.

Lemma getLastNonFinalMarkRows_throw (t : T) (e : Exception) :
  getLastMarkRows t = Throw e -> getLastNonFinalMarkRows t = Throw e.
Proof.
  intros Hlast. unfold getLastNonFinalMarkRows. rewrite Hlast. reflexivity.
Qed.

(** C7: on a table with at least one data mark,
    [getLastNonFinalMarkRows()] returns what [getLastMarkRows()] returns
    when that is non-zero, and otherwise the row count of the mark at
    [getMarksCount() - 2]; when the last mark is the final sentinel the
    table has at least two marks, so that index is the second-to-last mark
    of the table. *)
Theorem getLastNonFinalMarkRows_value (t : T) :
  1 <= getMarksCountWithoutFinal t ->
  mark_index_in_range t (Size.wrap (getMarksCount t - 1))
  /\ (forall r, getLastMarkRows t = Ok r -> r <> 0 ->
                getLastNonFinalMarkRows t = Ok r)
  /\ (getLastMarkRows t = Ok 0 ->
      getLastNonFinalMarkRows t
      = getMarkRows t (Size.wrap (getMarksCount t - 2)))
  /\ (hasFinalMark t = true ->
      2 <= getMarksCount t
      /\ Size.wrap (getMarksCount t - 2) = getMarksCount t - 2
      /\ mark_index_in_range t (getMarksCount t - 2)).
Proof.
  intros Hdata.
  apply getMarksCountWithoutFinal_data_marks in Hdata as [Hone Htwo].
  split; [| split; [| split]].
  - apply marks_count_minus_in_range; [unfold Size.modulus; lia | assumption].
  - apply getLastNonFinalMarkRows_nonzero.
  - apply getLastNonFinalMarkRows_zero.
  - intros Hfinal. specialize (Htwo Hfinal).
    split; [assumption |].
    pose proof (marks_count_minus t 2 ltac:(lia)) as Hminus.
    split; [assumption |].
    rewrite <- Hminus.
    apply marks_count_minus_in_range; [unfold Size.modulus; lia | assumption].
Qed.

(** C10: [getLastMarkRows()] asks [getMarkRows] for the mark at
    [getMarksCount() - 1]; on a table without marks the subtraction wraps
    to [2^64 - 1], which is no mark of the table, and the index is a mark
    of the table exactly when [getMarksCount() >= 1].  Likewise
    [getLastNonFinalMarkRows()], when the last mark has no rows, asks for
    the mark at [getMarksCount() - 2], which is a mark of the table exactly
    when [getMarksCount() >= 2]. *)
Theorem getLastMarkRows_precondition (t : T) :
  getLastMarkRows t = getMarkRows t (Size.wrap (getMarksCount t - 1))
  /\ (getMarksCount t = 0 ->
      Size.wrap (getMarksCount t - 1) = Size.modulus - 1
      /\ ~ mark_index_in_range t (Size.wrap (getMarksCount t - 1)))
  /\ (mark_index_in_range t (Size.wrap (getMarksCount t - 1)) <->
      1 <= getMarksCount t)
  /\ (getLastMarkRows t = Ok 0 ->
      getLastNonFinalMarkRows t
      = getMarkRows t (Size.wrap (getMarksCount t - 2)))
  /\ (mark_index_in_range t (Size.wrap (getMarksCount t - 2)) <->
      2 <= getMarksCount t).
Proof.
  assert (Hin : forall k, 0 < k <= 2 ->
            mark_index_in_range t (Size.wrap (getMarksCount t - k)) <->
            k <= getMarksCount t).
  { intros k Hk. apply marks_count_minus_in_range. unfold Size.modulus. lia. }
  split; [reflexivity |].
  split; [| split; [| split]].
  - intros Hzero. split.
    + rewrite marks_count_minus_borrow; unfold Size.modulus; lia.
    + rewrite (Hin 1) by lia. lia.
  - apply Hin. lia.
  - apply getLastNonFinalMarkRows_zero.
  - apply Hin. lia.
Qed.

End BaseClassFacts.

Section DelegatingMembers.

Context {T : Type} `{MergeTreeIndexGranularity T}.

Lemma addRowsToLastMark_final (t : T) (n : Z) :
  hasFinalMark t = true ->
  addRowsToLastMark n t = (Throw cannot_add_rows_to_final_mark, t).
Proof. intros Hfinal. unfold addRowsToLastMark. now rewrite Hfinal. Qed.

Lemma addRowsToLastMark_not_final (t : T) (n : Z) :
  hasFinalMark t = false ->
  addRowsToLastMark n t
  = if empty t then appendMark n t
    else and_then getLastMarkRows
           (fun last_mark_rows =>
              adjustLastMark (Size.wrap (last_mark_rows + n))) t.
Proof. intros Hfinal. unfold addRowsToLastMark. now rewrite Hfinal. Qed.

(** C3: [addRowsToLastMark(n)] raises its logic error exactly when
    [hasFinalMark()] is true: then it throws "Cannot add rows to final
    mark", and when [hasFinalMark()] is false its whole effect is that of
    the call it hands over to, [appendMark(n)] on an empty table and
    [adjustLastMark(getLastMarkRows() + n)] on a non-empty one; so, the
    call handed over to not throwing, [addRowsToLastMark] fails if and
    only if the table has a final mark. *)
Theorem addRowsToLastMark_cases (t : T) (n : Z) :
  (hasFinalMark t = true ->
   fst (addRowsToLastMark n t) = Throw cannot_add_rows_to_final_mark
   /\ code cannot_add_rows_to_final_mark = LOGICAL_ERROR)
  /\ (hasFinalMark t = false -> empty t = true ->
      addRowsToLastMark n t = appendMark n t)
  /\ (hasFinalMark t = false -> empty t = false ->
      addRowsToLastMark n t
      = and_then getLastMarkRows
          (fun last_mark_rows =>
             adjustLastMark (Size.wrap (last_mark_rows + n))) t)
  /\ (hasFinalMark t = false -> empty t = false ->
      forall last_mark_rows, getLastMarkRows t = Ok last_mark_rows ->
      addRowsToLastMark n t
      = adjustLastMark (Size.wrap (last_mark_rows + n)) t)
  /\ ((forall e,
         fst (if empty t then appendMark n t
              else and_then getLastMarkRows
                     (fun last_mark_rows =>
                        adjustLastMark (Size.wrap (last_mark_rows + n))) t)
         <> Throw e) ->
      (exists e, fst (addRowsToLastMark n t) = Throw e) <->
      hasFinalMark t = true).
Proof.
  split; [| split; [| split; [| split]]].
  - intros Hfinal. rewrite addRowsToLastMark_final by assumption.
    split; reflexivity.
  - intros Hfinal Hempty.
    rewrite addRowsToLastMark_not_final by assumption. now rewrite Hempty.
  - intros Hfinal Hempty.
    rewrite addRowsToLastMark_not_final by assumption. now rewrite Hempty.
  - intros Hfinal Hempty last_mark_rows Hlast.
    rewrite addRowsToLastMark_not_final by assumption. rewrite Hempty.
    unfold and_then. now rewrite Hlast.
  - intros Hquiet. split.
    + intros [e He].
      destruct (hasFinalMark t) eqn:Hfinal; [reflexivity | exfalso].
      rewrite addRowsToLastMark_not_final in He by assumption.
      exact (Hquiet e He).
    + intros Hfinal. exists cannot_add_rows_to_final_mark.
      now rewrite addRowsToLastMark_final.
Qed.

(** C9: on a table with a final mark [addRowsToLastMark(n)] throws its
    logic error before it touches the table: the table the failed call
    leaves is the table it was given, so the marks count, the total rows,
    the rows of every mark and the final-mark flag are what they were. *)
Theorem addRowsToLastMark_failure_atomic (t : T) (n : Z) :
  hasFinalMark t = true ->
  fst (addRowsToLastMark n t) = Throw cannot_add_rows_to_final_mark
  /\ snd (addRowsToLastMark n t) = t
  /\ getMarksCount (snd (addRowsToLastMark n t)) = getMarksCount t
  /\ getTotalRows (snd (addRowsToLastMark n t)) = getTotalRows t
  /\ (forall i, getMarkRows (snd (addRowsToLastMark n t)) i = getMarkRows t i)
  /\ hasFinalMark (snd (addRowsToLastMark n t)) = hasFinalMark t.
Proof.
  intros Hfinal.
  assert (Hsame : snd (addRowsToLastMark n t) = t)
    by (unfold addRowsToLastMark; now rewrite Hfinal).
  rewrite Hsame.
  unfold addRowsToLastMark at 1. rewrite Hfinal.
  repeat split.
Qed.

(** The loop of [getRowsCountInRanges] adds every range to its running
    total, modulo [2^64]. *)
Lemma getRowsCountInRanges_from_sum (t : T) (ranges : MarkRanges) (rows : list Z) :
  Forall2
    (fun range r =>
       getRowsCountInRange t (range_begin range) (range_end range) = Ok r)
    ranges rows ->
  forall total,
    getRowsCountInRanges_from t ranges (Size.wrap total)
    = Ok (Size.wrap (total + total_of rows)).
Proof.
  induction 1 as [| range r ranges rows Hr _ IH]; intros total.
  - cbn. now rewrite Z.add_0_r.
  - cbn [getRowsCountInRanges_from total_of fold_right].
    unfold getRowsCountInRange_MarkRange. rewrite Hr. cbn [bind].
    rewrite Size_wrap_add_l, IH. f_equal. f_equal.
    unfold total_of. lia.
Qed.

(** A range whose count throws ends the loop with that exception. *)
Lemma getRowsCountInRanges_from_throw
    (t : T) (done : MarkRanges) (rows : list Z) (range : MarkRange)
    (rest : MarkRanges) (e : Exception) :
  Forall2
    (fun range r =>
       getRowsCountInRange t (range_begin range) (range_end range) = Ok r)
    done rows ->
  getRowsCountInRange t (range_begin range) (range_end range) = Throw e ->
  forall total,
    getRowsCountInRanges_from t (done ++ range :: rest) total = Throw e.
Proof.
  intros Hdone Hthrow.
  induction Hdone as [| range' r done rows Hr _ IH]; intros total; cbn.
  - unfold getRowsCountInRange_MarkRange. now rewrite Hthrow.
  - unfold getRowsCountInRange_MarkRange at 1. rewrite Hr. cbn [bind].
    apply IH.
Qed.

(** C8: when the count of every range of the sequence is returned,
    [getRowsCountInRanges(ranges)] returns the sum of those counts, taken
    as the [size_t] addition of the loop takes it (modulo [2^64]), hence
    the exact sum whenever that fits a [size_t]; it is 0 on the empty
    sequence, and the count of a [MarkRange] is the count of its [begin]
    and [end]. *)
Theorem getRowsCountInRanges_sum (t : T) (ranges : MarkRanges) (rows : list Z) :
  Forall2
    (fun range r =>
       getRowsCountInRange t (range_begin range) (range_end range) = Ok r)
    ranges rows ->
  getRowsCountInRanges t ranges = Ok (Size.wrap (total_of rows))
  /\ (Size.in_range (total_of rows) ->
      getRowsCountInRanges t ranges = Ok (total_of rows))
  /\ getRowsCountInRanges t [] = Ok 0
  /\ (forall range,
        getRowsCountInRange_MarkRange t range
        = getRowsCountInRange t (range_begin range) (range_end range)).
Proof.
  intros Hrows.
  assert (Hsum : getRowsCountInRanges t ranges = Ok (Size.wrap (total_of rows))).
  { unfold getRowsCountInRanges.
    change 0 with (Size.wrap 0) at 1.
    now rewrite (getRowsCountInRanges_from_sum t ranges rows Hrows 0). }
  split; [exact Hsum |].
  split; [| split; [reflexivity | reflexivity]].
  intros Hfits. rewrite Hsum. now rewrite Size_wrap_small.
Qed.

End DelegatingMembers.

(** ** The base class on the sample tables *)

Lemma getMarksCountWithoutFinal_value_witness :
  hasFinalMark sealed_table = true
  /\ getMarksCount sealed_table = 3
  /\ getMarksCountWithoutFinal sealed_table = 3 - 1.
Proof.
  assert (Hcounted : hasFinalMark sealed_table = true ->
                     getMarksCount sealed_table <> 0)
    by (intros _; vm_compute; discriminate).
  split; [reflexivity |]. split; [reflexivity |].
  exact (proj1 (getMarksCountWithoutFinal_value sealed_table Hcounted)
           eq_refl).
Defined.

Example getMarksCountWithoutFinal_sealed :
  getMarksCount sealed_table = 3
  /\ hasFinalMark sealed_table = true
  /\ getMarksCountWithoutFinal sealed_table = 2.
Proof. repeat split. Qed.

Example getMarksCountWithoutFinal_growing :
  getMarksCount growing_table = 2
  /\ hasFinalMark growing_table = false
  /\ getMarksCountWithoutFinal growing_table = 2.
Proof. repeat split. Qed.

Lemma getLastNonFinalMarkRows_value_witness :
  1 <= getMarksCountWithoutFinal sealed_table
  /\ getLastMarkRows sealed_table = Ok 0
  /\ getLastNonFinalMarkRows sealed_table = getMarkRows sealed_table 1
  /\ getLastNonFinalMarkRows sealed_table = Ok 100.
Proof.
  assert (Hdata : 1 <= getMarksCountWithoutFinal sealed_table)
    by (vm_compute; discriminate).
  destruct (getLastNonFinalMarkRows_value sealed_table Hdata)
    as (_ & _ & Hzero & _).
  repeat split; try assumption; rewrite Hzero; reflexivity.
Defined.

Example getLastNonFinalMarkRows_growing :
  getLastNonFinalMarkRows growing_table = Ok 100.
Proof. reflexivity. Qed.

(** On a table without marks both calls ask for a mark that is not
    there. *)
Example getLastMarkRows_fresh :
  getLastMarkRows fresh_table = Throw Adaptive.out_of_range
  /\ getLastNonFinalMarkRows fresh_table = Throw Adaptive.out_of_range.
Proof. split; reflexivity. Qed.

Lemma addRowsToLastMark_failure_atomic_witness :
  hasFinalMark sealed_table = true
  /\ addRowsToLastMark 7 sealed_table
     = (Throw cannot_add_rows_to_final_mark, sealed_table)
  /\ getTotalRows (snd (addRowsToLastMark 7 sealed_table)) = 8292.
Proof.
  assert (Hfinal : hasFinalMark sealed_table = true) by reflexivity.
  destruct (addRowsToLastMark_failure_atomic sealed_table 7 Hfinal)
    as (Hthrow & Hsame & _ & Hrows & _).
  split; [exact Hfinal |]. split.
  - rewrite (surjective_pairing (addRowsToLastMark 7 sealed_table)).
    now rewrite Hthrow, Hsame.
  - rewrite Hrows. reflexivity.
Defined.

Example addRowsToLastMark_fresh :
  addRowsToLastMark 7 fresh_table = (Ok tt, {| marks_rows := [7] |})
  /\ addRowsToLastMark 7 fresh_table = appendMark 7 fresh_table.
Proof. split; reflexivity. Qed.

Example addRowsToLastMark_growing :
  addRowsToLastMark 7 growing_table = (Ok tt, {| marks_rows := [8192; 107] |})
  /\ addRowsToLastMark 7 growing_table = adjustLastMark (100 + 7) growing_table.
Proof. split; reflexivity. Qed.

Lemma getRowsCountInRanges_sum_witness :
  getRowsCountInRanges sealed_table
    [ {| range_begin := 0; range_end := 1 |};
      {| range_begin := 1; range_end := 3 |} ]
  = Ok 8292.
Proof.
  apply (getRowsCountInRanges_sum sealed_table
           [ {| range_begin := 0; range_end := 1 |};
             {| range_begin := 1; range_end := 3 |} ]
           [8192; 100]).
  - repeat constructor.
  - vm_compute. split; [discriminate | reflexivity].
Defined.

(** ** The base class on the sequence-of-rows table *)

Lemma Adaptive_getRowsCountInRange_within
    (t : MergeTreeIndexGranularityAdaptive) (begin_ end_ : Z) :
  0 <= begin_ <= end_ -> end_ <= Adaptive.size t ->
  exists r, getRowsCountInRange t begin_ end_ = Ok r.
Proof.
  intros [Hbegin Hle] Hend. cbn. unfold Adaptive.getRowsCountInRange.
  destruct (Z.leb_spec 0 begin_); [| lia].
  destruct (Z.leb_spec begin_ end_); [| lia].
  destruct (Z.leb_spec end_ (Adaptive.size t)); [| lia].
  eexists. reflexivity.
Qed.

(** Ranges within the table are all counted, so their sum is returned. *)
Lemma Adaptive_getRowsCountInRanges_within
    (t : MergeTreeIndexGranularityAdaptive) (ranges : MarkRanges) :
  Forall
    (fun range =>
       0 <= range_begin range <= range_end range
       /\ range_end range <= Adaptive.size t)
    ranges ->
  exists rows,
    Forall2
      (fun range r =>
         getRowsCountInRange t (range_begin range) (range_end range) = Ok r)
      ranges rows
    /\ getRowsCountInRanges t ranges = Ok (Size.wrap (total_of rows)).
Proof.
  intros Hwithin.
  assert (Hrows : exists rows,
            Forall2
              (fun range r =>
                 getRowsCountInRange t (range_begin range) (range_end range)
                 = Ok r)
              ranges rows).
  { induction Hwithin as [| range ranges [Hbounds Hend] _ [rows IH]].
    - exists []. constructor.
    - destruct (Adaptive_getRowsCountInRange_within t _ _ Hbounds Hend)
        as [r Hr].
      exists (r :: rows). now constructor. }
  destruct Hrows as [rows Hrows]. exists rows. split; [assumption |].
  unfold getRowsCountInRanges. change 0 with (Size.wrap 0) at 1.
  now rewrite (getRowsCountInRanges_from_sum t ranges rows Hrows 0).
Qed.

Lemma Adaptive_getMarksCount_small (t : MergeTreeIndexGranularityAdaptive) :
  Adaptive.size t < Size.modulus -> getMarksCount t = Adaptive.size t.
Proof.
  intros Hsmall. cbn. unfold Adaptive.getMarksCount.
  apply Size_wrap_small. unfold Size.in_range, Adaptive.size in *. lia.
Qed.

(** A final mark of the sequence-of-rows table is one of its marks. *)
Lemma Adaptive_hasFinalMark_counted (t : MergeTreeIndexGranularityAdaptive) :
  hasFinalMark t = true -> 1 <= Adaptive.size t.
Proof.
  cbn. unfold Adaptive.hasFinalMark, Adaptive.size.
  destruct (marks_rows t) as [| r rows]; [discriminate |].
  intros _. cbn [length]. lia.
Qed.

(** So does the premise on tables hold of the sequence-of-rows table. *)
Lemma Adaptive_final_mark_counted (t : MergeTreeIndexGranularityAdaptive) :
  Adaptive.size t < Size.modulus ->
  hasFinalMark t = true -> getMarksCount t <> 0.
Proof.
  intros Hsmall Hfinal.
  rewrite Adaptive_getMarksCount_small by assumption.
  apply Adaptive_hasFinalMark_counted in Hfinal. lia.
Qed.

(** On the sequence-of-rows table nothing [addRowsToLastMark] hands over
    to throws, so the call fails exactly when there is a final mark. *)
Lemma Adaptive_addRowsToLastMark_throws_iff
    (t : MergeTreeIndexGranularityAdaptive) (n : Z) :
  Adaptive.size t < Size.modulus ->
  (exists e, fst (addRowsToLastMark n t) = Throw e) <-> hasFinalMark t = true.
Proof.
  intros Hsmall. split.
  - intros [e He].
    destruct (hasFinalMark t) eqn:Hfinal; [reflexivity | exfalso].
    rewrite addRowsToLastMark_not_final in He by assumption.
    unfold empty in He. rewrite Adaptive_getMarksCount_small in He by assumption.
    destruct (Z.eqb_spec (Adaptive.size t) 0) as [Hzero | Hsome].
    + discriminate He.
    + unfold and_then, getLastMarkRows in He.
      rewrite Adaptive_getMarksCount_small in He by assumption.
      assert (Hsize : 1 <= Adaptive.size t)
        by (unfold Adaptive.size in *; lia).
      rewrite Size_wrap_small in He
        by (unfold Size.in_range; lia).
      cbn in He. unfold Adaptive.getMarkRows in He.
      destruct (Z.leb_spec 0 (Adaptive.size t - 1)); [| lia].
      destruct (Z.ltb_spec (Adaptive.size t - 1) (Adaptive.size t)); [| lia].
      cbn in He. unfold Adaptive.adjustLastMark in He.
      destruct (marks_rows t) eqn:Hmarks.
      * unfold Adaptive.size in Hsize. rewrite Hmarks in Hsize.
        cbn in Hsize. lia.
      * discriminate He.
  - intros Hfinal. exists cannot_add_rows_to_final_mark.
    now rewrite addRowsToLastMark_final.
Qed.

(** * Further properties of the code *)

(** ** GranularityPolicy: what each branch guarantees *)

(** X1: Where no division is reached the block's bytes play no part: with
    adaptive mode disabled the result is the configured ceiling (1 for a
    ceiling of 0) whatever the block and whatever [blocks_are_granules];
    with adaptive mode enabled and the block declared a granule it is the
    block's row count (1 for an empty block), ceiling or not. *)
Theorem computeIndexGranularityForBlock_without_division
    rows bytes igb fixed bag :
  computeIndexGranularityForBlock rows bytes igb fixed bag false
  = Some (if fixed =? 0 then 1 else fixed)
  /\ computeIndexGranularityForBlock rows bytes igb fixed true true
     = Some (if rows =? 0 then 1 else rows).
Proof.
  unfold computeIndexGranularityForBlock. cbn [negb obind].
  split; [| reflexivity].
  destruct bag; cbn [negb]; [reflexivity |].
  now rewrite Z.min_id.
Qed.

(** X2: In adaptive mode a block that is not declared a granule and is
    at or above the byte threshold is cut into at least
    [bytes_in_block / index_granularity_bytes] granules: the call returns,
    the granule is no larger than the block, that many granules fit in the
    block's rows, and a block with fewer rows than that gets one-row
    granules. *)
Theorem computeIndexGranularityForBlock_splits_block rows bytes igb fixed :
  Size.in_range rows -> Size.in_range fixed ->
  1 <= igb <= bytes ->
  exists g,
    computeIndexGranularityForBlock rows bytes igb fixed false true = Some g
    /\ 1 <= g <= Z.max rows 1
    /\ (bytes / igb <= rows -> g * (bytes / igb) <= rows)
    /\ (rows < bytes / igb -> g = 1).
Proof.
  intros [Hrows _] [Hfixed _] [Higb Hbytes].
  assert (Hgranules : 1 <= bytes / igb)
    by (apply Z.div_le_lower_bound; lia).
  assert (Hx : unclamped_granularity rows bytes igb fixed false true
               = Some (rows / (bytes / igb))).
  { unfold unclamped_granularity, obind. cbn [negb].
    destruct (Z.leb_spec igb bytes); [| lia].
    rewrite Size_div_some by lia. now rewrite Size_div_some by lia. }
  rewrite (computeIndexGranularityForBlock_unclamped _ _ _ _ _ _ _ Hx).
  cbn [negb]. cbv zeta. eexists. split; [reflexivity |].
  pose proof (Z.mul_div_le rows (bytes / igb) ltac:(lia)) as Hfit.
  assert (Hquot : 0 <= rows / (bytes / igb)) by (apply Z.div_pos; lia).
  assert (Hle : rows / (bytes / igb) <= rows)
    by (apply Z.div_le_upper_bound; nia).
  destruct (Z.eqb_spec (Z.min fixed (rows / (bytes / igb))) 0) as [E | E].
  - repeat split; try lia.
  - repeat split; try lia.
    + intros _. nia.
    + intros Hfew. rewrite Z.div_small in E by lia. lia.
Qed.

Lemma computeIndexGranularityForBlock_splits_block_witness :
  exists g,
    computeIndexGranularityForBlock 8192 40000 10000 1024 false true = Some g
    /\ 1 <= g <= Z.max 8192 1
    /\ (40000 / 10000 <= 8192 -> g * (40000 / 10000) <= 8192)
    /\ (8192 < 40000 / 10000 -> g = 1).
Proof.
  apply (computeIndexGranularityForBlock_splits_block 8192 40000 10000 1024);
    unfold Size.in_range, Size.modulus; lia.
Defined.

(** X3: In adaptive mode, for a non-empty block that is not declared a
    granule and is below the byte threshold, the call returns, without
    the floor being needed for the threshold's sake, a granule that at the
    estimated row size [max(bytes_in_block / rows_in_block, 1)] stays
    within [index_granularity_bytes]. *)
Theorem computeIndexGranularityForBlock_within_threshold rows bytes igb fixed :
  Size.in_range bytes -> Size.in_range fixed ->
  1 <= rows -> bytes < igb ->
  exists g,
    computeIndexGranularityForBlock rows bytes igb fixed false true = Some g
    /\ 1 <= g
    /\ g * Z.max (bytes / rows) 1 <= igb
    /\ 1 <= igb / Z.max (bytes / rows) 1.
Proof.
  intros [Hbytes _] [Hfixed _] Hrows Higb.
  set (row := Z.max (bytes / rows) 1).
  assert (Hrow : 1 <= row <= igb).
  { subst row. split; [lia |].
    assert (bytes / rows <= bytes) by (apply Z.div_le_upper_bound; nia).
    lia. }
  assert (Hx : unclamped_granularity rows bytes igb fixed false true
               = Some (igb / row)).
  { unfold unclamped_granularity, obind. cbn [negb].
    destruct (Z.leb_spec igb bytes); [lia |].
    rewrite Size_div_some by lia. now rewrite Size_div_some by (subst row; lia). }
  rewrite (computeIndexGranularityForBlock_unclamped _ _ _ _ _ _ _ Hx).
  cbn [negb]. cbv zeta. eexists. split; [reflexivity |].
  assert (Hquot : 1 <= igb / row) by (apply Z.div_le_lower_bound; lia).
  pose proof (Z.mul_div_le igb row ltac:(lia)) as Hfit.
  destruct (Z.eqb_spec (Z.min fixed (igb / row)) 0) as [E | E];
    repeat split; try lia; nia.
Qed.

Lemma computeIndexGranularityForBlock_within_threshold_witness :
  exists g,
    computeIndexGranularityForBlock 2 10 100 50 false true = Some g
    /\ 1 <= g
    /\ g * Z.max (10 / 2) 1 <= 100
    /\ 1 <= 100 / Z.max (10 / 2) 1.
Proof.
  apply (computeIndexGranularityForBlock_within_threshold 2 10 100 50);
    unfold Size.in_range, Size.modulus; lia.
Defined.

(** X4: Raising the configured ceiling never makes the granule smaller. *)
Theorem computeIndexGranularityForBlock_monotone_in_ceiling
    rows bytes igb fixed fixed' bag adaptive g g' :
  Size.in_range rows -> Size.in_range bytes -> Size.in_range igb ->
  0 <= fixed <= fixed' ->
  computeIndexGranularityForBlock rows bytes igb fixed bag adaptive = Some g ->
  computeIndexGranularityForBlock rows bytes igb fixed' bag adaptive = Some g' ->
  g <= g'.
Proof.
  intros [Hrows _] [Hbytes _] [Higb _] Hfixed Hg Hg'.
  apply computeIndexGranularityForBlock_inv in Hg as [x [Hx ->]].
  apply computeIndexGranularityForBlock_inv in Hg' as [x' [Hx' ->]].
  assert (0 <= x)
    by (apply (unclamped_granularity_nonneg rows bytes igb fixed bag adaptive);
        try assumption; lia).
  assert (0 <= x')
    by (apply (unclamped_granularity_nonneg rows bytes igb fixed' bag adaptive);
        try assumption; lia).
  assert (Hcases : (adaptive = false /\ x = fixed /\ x' = fixed')
                   \/ (adaptive = true /\ x = x')).
  { unfold unclamped_granularity in Hx, Hx'.
    destruct adaptive; cbn [negb] in Hx, Hx'.
    - right. split; [reflexivity | congruence].
    - left. repeat split; congruence. }
  cbv zeta.
  destruct Hcases as [(_ & -> & ->) | (_ & <-)]; destruct bag; cbn [negb];
    repeat match goal with
           | |- context [if ?c =? 0 then _ else _] =>
               destruct (Z.eqb_spec c 0)
           end; lia.
Qed.

Lemma computeIndexGranularityForBlock_monotone_in_ceiling_witness :
  computeIndexGranularityForBlock 2 10 100 10 false true = Some 10
  /\ computeIndexGranularityForBlock 2 10 100 50 false true = Some 20
  /\ 10 <= 20.
Proof.
  split; [reflexivity | split; [reflexivity |]].
  apply (computeIndexGranularityForBlock_monotone_in_ceiling
           2 10 100 10 50 false true 10 20);
    solve [unfold Size.in_range, Size.modulus; lia | reflexivity].
Defined.

(** ** GranularityTableFactory: the tables it builds *)

Lemma createMergeTreeIndexGranularity_constant_inv
    rows_in_block bytes_in_block settings info blocks_are_granules stride :
  createMergeTreeIndexGranularity
    rows_in_block bytes_in_block settings info blocks_are_granules
  = Some (make_shared_Constant stride) ->
  blocks_are_granules = false
  /\ part_type (mark_type info) <> Compact
  /\ (adaptive (mark_type info) = true ->
      use_const_adaptive_granularity settings = true)
  /\ computeIndexGranularityForBlock
       rows_in_block bytes_in_block
       (index_granularity_bytes settings) (index_granularity settings)
       false (adaptive (mark_type info)) = Some stride.
Proof.
  unfold createMergeTreeIndexGranularity. cbv zeta.
  destruct blocks_are_granules; cbn [orb]; [discriminate |].
  destruct (part_type (mark_type info)); cbn [MergeTreeDataPartType_eqb orb];
    [discriminate |].
  destruct (adaptive (mark_type info)),
    (use_const_adaptive_granularity settings); cbn [andb negb];
    try discriminate;
    (destruct (computeIndexGranularityForBlock _ _ _ _ _ _) as [g |];
     [| discriminate]);
    intros [= <-]; repeat split; congruence.
Qed.

(** X5: A constant table never gets a stride of zero rows, nor, for a
    configured [index_granularity] of at least 1, a stride above it; and
    the factory builds one only for a part that is not compact, from a
    block that is not itself a granule. *)
Theorem createMergeTreeIndexGranularity_constant_stride
    rows_in_block bytes_in_block settings info blocks_are_granules stride :
  Size.in_range rows_in_block -> Size.in_range bytes_in_block ->
  Size.in_range (index_granularity_bytes settings) ->
  Size.in_range (index_granularity settings) ->
  createMergeTreeIndexGranularity
    rows_in_block bytes_in_block settings info blocks_are_granules
  = Some (make_shared_Constant stride) ->
  1 <= stride <= Z.max (index_granularity settings) 1
  /\ blocks_are_granules = false
  /\ part_type (mark_type info) <> Compact.
Proof.
  intros [Hrows _] [Hbytes _] [Higb _] [Hig _] Hcreate.
  apply createMergeTreeIndexGranularity_constant_inv in Hcreate
    as (Hbag & Hpart & _ & Hstride).
  split; [| now split].
  apply computeIndexGranularityForBlock_inv in Hstride as [x [Hx ->]].
  apply unclamped_granularity_nonneg in Hx; try assumption.
  cbn [negb]. cbv zeta.
  destruct (Z.eqb_spec (Z.min (index_granularity settings) x) 0); lia.
Qed.

Lemma createMergeTreeIndexGranularity_constant_stride_witness :
  createMergeTreeIndexGranularity
    100000 52428800 wide_part_settings wide_adaptive_part false
  = Some (make_shared_Constant 8192)
  /\ 1 <= 8192 <= Z.max 8192 1.
Proof.
  split; [reflexivity |].
  apply (createMergeTreeIndexGranularity_constant_stride
           100000 52428800 wide_part_settings wide_adaptive_part false 8192);
    solve [unfold Size.in_range, Size.modulus; cbn; lia | reflexivity].
Defined.

(** X6: For a part whose marks are not adaptive and whose layout is not
    compact the factory ignores the block and the adaptive settings: the
    table is constant with the configured [index_granularity] as stride
    (1 when that is 0). *)
Theorem createMergeTreeIndexGranularity_non_adaptive
    rows_in_block bytes_in_block settings info :
  adaptive (mark_type info) = false ->
  part_type (mark_type info) <> Compact ->
  createMergeTreeIndexGranularity rows_in_block bytes_in_block settings info false
  = Some (make_shared_Constant
            (if index_granularity settings =? 0 then 1
             else index_granularity settings)).
Proof.
  intros Hadaptive Hpart.
  unfold createMergeTreeIndexGranularity, computeIndexGranularityForBlock.
  cbv zeta. rewrite Hadaptive.
  destruct (part_type (mark_type info)); [contradiction |].
  cbn. now rewrite Z.min_id.
Qed.

Lemma createMergeTreeIndexGranularity_non_adaptive_witness :
  createMergeTreeIndexGranularity 0 0
    {| index_granularity := 8192; index_granularity_bytes := 0;
       use_const_adaptive_granularity := false |}
    {| mark_type := {| adaptive := false; part_type := Other |} |} false
  = Some (make_shared_Constant 8192).
Proof.
  apply (createMergeTreeIndexGranularity_non_adaptive 0 0
           {| index_granularity := 8192; index_granularity_bytes := 0;
              use_const_adaptive_granularity := false |}
           {| mark_type := {| adaptive := false; part_type := Other |} |});
    [reflexivity | discriminate].
Defined.

(** X7: The factory has no defined result in exactly one situation: a part
    that is not compact, with adaptive marks, constant-adaptive mode
    forced, a block that is not a granule, and a division by zero in the
    policy ([index_granularity_bytes] is 0, or the block is below the
    threshold and has no rows). *)
Theorem createMergeTreeIndexGranularity_undefined_iff
    rows_in_block bytes_in_block settings info blocks_are_granules :
  Size.in_range bytes_in_block ->
  Size.in_range (index_granularity_bytes settings) ->
  createMergeTreeIndexGranularity
    rows_in_block bytes_in_block settings info blocks_are_granules = None
  <->
  blocks_are_granules = false
  /\ part_type (mark_type info) <> Compact
  /\ adaptive (mark_type info) = true
  /\ use_const_adaptive_granularity settings = true
  /\ (index_granularity_bytes settings = 0
      \/ (bytes_in_block < index_granularity_bytes settings
          /\ rows_in_block = 0)).
Proof.
  intros [Hbytes _] [Higb _].
  pose proof (unclamped_granularity_defined rows_in_block bytes_in_block
                (index_granularity_bytes settings) (index_granularity settings)
                false true Hbytes Higb) as Hdefined.
  unfold divisions_defined in Hdefined.
  unfold createMergeTreeIndexGranularity. cbv zeta.
  destruct blocks_are_granules; cbn [orb].
  { split; [discriminate | intros [Hc _]; discriminate]. }
  destruct (part_type (mark_type info)); cbn [MergeTreeDataPartType_eqb orb].
  { split; [discriminate | intros (_ & Hc & _); now contradiction Hc]. }
  destruct (adaptive (mark_type info)); cbn [andb].
  - destruct (use_const_adaptive_granularity settings); cbn [negb].
    + destruct (unclamped_granularity rows_in_block bytes_in_block
                  (index_granularity_bytes settings)
                  (index_granularity settings) false true) as [x |] eqn:Hx.
      * rewrite (computeIndexGranularityForBlock_unclamped _ _ _ _ _ _ _ Hx).
        cbn [obind]. split; [discriminate |].
        intros (_ & _ & _ & _ & Hzero).
        assert (Hsome : exists y, Some x = Some y) by now exists x.
        apply Hdefined in Hsome as [Hc | [Hc | [Hnz Hreach]]];
          try discriminate; lia.
      * rewrite (computeIndexGranularityForBlock_none _ _ _ _ _ _ Hx).
        cbn [obind]. split; [| reflexivity]. intros _.
        repeat split; try discriminate.
        destruct (Z.eq_dec (index_granularity_bytes settings) 0) as [E | E];
          [now left | right].
        destruct (Z_lt_le_dec bytes_in_block (index_granularity_bytes settings))
          as [Hlt | Hle].
        -- split; [assumption |].
           destruct (Z.eq_dec rows_in_block 0) as [E0 | E0]; [assumption |].
           destruct (proj1 Hdefined) as [y Hy]; [| discriminate Hy].
           right; right. split; [assumption | now right].
        -- destruct (proj1 Hdefined) as [y Hy]; [| discriminate Hy].
           right; right. split; [assumption | now left].
    + split; [discriminate | intros (_ & _ & _ & Hc & _); discriminate].
  - split.
    + destruct (computeIndexGranularityForBlock _ _ _ _ _ _) eqn:Hg;
        [discriminate |].
      unfold computeIndexGranularityForBlock in Hg. discriminate Hg.
    + intros (_ & _ & Hc & _). discriminate.
Qed.

Lemma createMergeTreeIndexGranularity_undefined_iff_witness :
  createMergeTreeIndexGranularity 100 1000
    {| index_granularity := 8192; index_granularity_bytes := 0;
       use_const_adaptive_granularity := true |}
    wide_adaptive_part false = None.
Proof.
  apply (createMergeTreeIndexGranularity_undefined_iff 100 1000
           {| index_granularity := 8192; index_granularity_bytes := 0;
              use_const_adaptive_granularity := true |}
           wide_adaptive_part false);
    try (unfold Size.in_range, Size.modulus; cbn; lia).
  repeat split; try discriminate; try reflexivity. now left.
Defined.

(** ** GranularityTable: more on the members of the base class *)

Lemma total_of_app (rows rows' : list Z) :
  total_of (rows ++ rows') = total_of rows + total_of rows'.
Proof.
  unfold total_of. induction rows as [| r rows IH]; cbn; [reflexivity |].
  rewrite IH. lia.
Qed.

Lemma total_of_Permutation (rows rows' : list Z) :
  Permutation rows rows' -> total_of rows = total_of rows'.
Proof.
  unfold total_of. induction 1; cbn; lia.
Qed.

Lemma Size_wrap_add (a b : Z) :
  Size.wrap (Size.wrap a + Size.wrap b) = Size.wrap (a + b).
Proof. unfold Size.wrap. now rewrite <- Zplus_mod. Qed.

Section RangesFacts.

Context {T : Type} `{MergeTreeIndexGranularity T}.

Lemma counted_rows_Forall2 (t : T) (ranges : MarkRanges) :
  Forall (counted t) ranges ->
  Forall2
    (fun range r =>
       getRowsCountInRange t (range_begin range) (range_end range) = Ok r)
    ranges (map (counted_rows t) ranges).
Proof.
  induction 1 as [| range ranges [rows Hrows] _ IH]; cbn [map];
    constructor; [| assumption].
  unfold counted_rows. rewrite Hrows. exact Hrows.
Qed.

Lemma getRowsCountInRanges_from_inv (t : T) (ranges : MarkRanges) :
  forall total x,
    getRowsCountInRanges_from t ranges total = Ok x ->
    Forall (counted t) ranges.
Proof.
  induction ranges as [| range ranges IH]; intros total x Hx; [constructor |].
  cbn in Hx.
  destruct (getRowsCountInRange_MarkRange t range) as [rows |] eqn:Hrows;
    [| discriminate].
  constructor; [now exists rows | eapply IH; exact Hx].
Qed.

(** What [getRowsCountInRanges] returns, when it returns. *)
Lemma getRowsCountInRanges_counted (t : T) (ranges : MarkRanges) :
  Forall (counted t) ranges ->
  getRowsCountInRanges t ranges
  = Ok (Size.wrap (total_of (map (counted_rows t) ranges))).
Proof.
  intros Hcounted. unfold getRowsCountInRanges.
  change 0 with (Size.wrap 0) at 1.
  now rewrite (getRowsCountInRanges_from_sum t ranges _
                 (counted_rows_Forall2 t ranges Hcounted) 0).
Qed.

Lemma getRowsCountInRanges_inv (t : T) (ranges : MarkRanges) (x : Z) :
  getRowsCountInRanges t ranges = Ok x ->
  Forall (counted t) ranges
  /\ x = Size.wrap (total_of (map (counted_rows t) ranges)).
Proof.
  intros Hx.
  assert (Hcounted : Forall (counted t) ranges)
    by (eapply getRowsCountInRanges_from_inv; exact Hx).
  split; [assumption |].
  rewrite (getRowsCountInRanges_counted t ranges Hcounted) in Hx. congruence.
Qed.

(** X8: [getMarksCountWithoutFinal()] is a [size_t] between
    [getMarksCount() - 1] and [getMarksCount()], and it is
    [getMarksCount()] exactly when the table has no mark or no final
    mark: the subtraction never wraps. *)
Theorem getMarksCountWithoutFinal_bounds (t : T) :
  0 <= getMarksCountWithoutFinal t <= getMarksCount t
  /\ getMarksCount t - 1 <= getMarksCountWithoutFinal t
  /\ (getMarksCountWithoutFinal t = getMarksCount t <->
      getMarksCount t = 0 \/ hasFinalMark t = false).
Proof.
  pose proof (getMarksCount_size_t t) as Hrange. unfold Size.in_range in Hrange.
  rewrite getMarksCountWithoutFinal_unfold.
  destruct (Z.eqb_spec (getMarksCount t) 0) as [E | E].
  - rewrite E. intuition lia.
  - destruct (hasFinalMark t); intuition (try lia; try discriminate).
Qed.

(** X9: Counting the rows of two sequences of ranges one after the other
    counts their rows together: the result for [ranges ++ ranges'] is the
    [size_t] sum of the two results. *)
Theorem getRowsCountInRanges_app
    (t : T) (ranges ranges' : MarkRanges) (rows rows' : Z) :
  getRowsCountInRanges t ranges = Ok rows ->
  getRowsCountInRanges t ranges' = Ok rows' ->
  getRowsCountInRanges t (ranges ++ ranges') = Ok (Size.wrap (rows + rows')).
Proof.
  intros Hrows Hrows'.
  apply getRowsCountInRanges_inv in Hrows as [Hcounted ->].
  apply getRowsCountInRanges_inv in Hrows' as [Hcounted' ->].
  rewrite getRowsCountInRanges_counted by (apply Forall_app; now split).
  now rewrite map_app, total_of_app, Size_wrap_add.
Qed.

(** X10: The order of the ranges does not matter to a count that is returned:
    any rearrangement of the sequence is counted too, with the same
    result. *)
Theorem getRowsCountInRanges_Permutation
    (t : T) (ranges ranges' : MarkRanges) (rows : Z) :
  Permutation ranges ranges' ->
  getRowsCountInRanges t ranges = Ok rows ->
  getRowsCountInRanges t ranges' = Ok rows.
Proof.
  intros Hperm Hrows.
  apply getRowsCountInRanges_inv in Hrows as [Hcounted ->].
  rewrite getRowsCountInRanges_counted
    by (eapply Permutation_Forall; eassumption).
  f_equal. f_equal. symmetry.
  apply total_of_Permutation, Permutation_map, Hperm.
Qed.

(** X11: [getRowsCountInRanges] stops at the first range whose count throws:
    it throws that exception, whatever follows in the sequence, and it
    returns a count if and only if every range of the sequence is
    counted. *)
Theorem getRowsCountInRanges_first_failure
    (t : T) (done : MarkRanges) (range : MarkRange) (rest : MarkRanges)
    (e : Exception) :
  Forall (counted t) done ->
  getRowsCountInRange t (range_begin range) (range_end range) = Throw e ->
  getRowsCountInRanges t (done ++ range :: rest) = Throw e
  /\ forall ranges,
       (exists rows, getRowsCountInRanges t ranges = Ok rows) <->
       Forall (counted t) ranges.
Proof.
  intros Hdone Hthrow. split.
  - apply (getRowsCountInRanges_from_throw t done
             (map (counted_rows t) done) range rest e);
      [now apply counted_rows_Forall2 | assumption].
  - intros ranges. split.
    + intros [rows Hrows]. now apply getRowsCountInRanges_inv in Hrows.
    + intros Hcounted. eexists. now apply getRowsCountInRanges_counted.
Qed.

(** X12: [getLastNonFinalMarkRows()] returns 0 only when both marks it looks
    at, the last one and the one at [getMarksCount() - 2], have no rows;
    and it throws only what one of its two [getMarkRows] calls throws. *)
Theorem getLastNonFinalMarkRows_zero_or_throw (t : T) :
  (getLastNonFinalMarkRows t = Ok 0 ->
   getLastMarkRows t = Ok 0
   /\ getMarkRows t (Size.wrap (getMarksCount t - 2)) = Ok 0)
  /\ (forall e,
        getLastNonFinalMarkRows t = Throw e ->
        getMarkRows t (Size.wrap (getMarksCount t - 1)) = Throw e
        \/ (getMarkRows t (Size.wrap (getMarksCount t - 1)) = Ok 0
            /\ getMarkRows t (Size.wrap (getMarksCount t - 2)) = Throw e)).
Proof.
  unfold getLastNonFinalMarkRows, getLastMarkRows.
  destruct (getMarkRows t (Size.wrap (getMarksCount t - 1))) as [last |]
    eqn:Hlast; cbn [bind].
  - destruct (Z.eqb_spec last 0) as [-> | Hnz]; cbn [negb].
    + split; [now intros -> | intros e ->; right; now split].
    + split; [intros [= ->]; contradiction | discriminate].
  - split; [discriminate | intros e' [= ->]; now left].
Qed.

End RangesFacts.

Lemma getRowsCountInRanges_app_witness :
  getRowsCountInRanges sealed_table
    ([ {| range_begin := 0; range_end := 1 |} ]
     ++ [ {| range_begin := 1; range_end := 3 |} ])
  = Ok (Size.wrap (8192 + 100)).
Proof.
  apply (getRowsCountInRanges_app sealed_table
           [ {| range_begin := 0; range_end := 1 |} ]
           [ {| range_begin := 1; range_end := 3 |} ] 8192 100);
    reflexivity.
Defined.

Lemma getRowsCountInRanges_Permutation_witness :
  getRowsCountInRanges sealed_table
    [ {| range_begin := 1; range_end := 3 |};
      {| range_begin := 0; range_end := 1 |} ]
  = Ok 8292.
Proof.
  apply (getRowsCountInRanges_Permutation sealed_table
           [ {| range_begin := 0; range_end := 1 |};
             {| range_begin := 1; range_end := 3 |} ]);
    [apply perm_swap | reflexivity].
Defined.

Lemma getRowsCountInRanges_first_failure_witness :
  getRowsCountInRanges sealed_table
    ([ {| range_begin := 0; range_end := 1 |} ]
     ++ {| range_begin := 2; range_end := 9 |}
     :: [ {| range_begin := 1; range_end := 3 |} ])
  = Throw Adaptive.out_of_range.
Proof.
  apply (getRowsCountInRanges_first_failure sealed_table
           [ {| range_begin := 0; range_end := 1 |} ]
           {| range_begin := 2; range_end := 9 |}
           [ {| range_begin := 1; range_end := 3 |} ]
           Adaptive.out_of_range);
    [| reflexivity].
  repeat constructor. exists 8192. reflexivity.
Defined.

(** ** The grower of the hashed dictionaries' tables *)

Lemma two_power_divides (d : Z) :
  0 <= d <= 64 -> (2 ^ d | Size.modulus).
Proof.
  intros Hd. exists (2 ^ (64 - d)). unfold Size.modulus.
  rewrite <- Z.pow_add_r by lia. f_equal. lia.
Qed.

Lemma wrap_mod_two_power (x d : Z) :
  0 <= d <= 64 -> Size.wrap x mod 2 ^ d = x mod 2 ^ d.
Proof.
  intros Hd. unfold Size.wrap.
  apply Z.mod_mod_divide. now apply two_power_divides.
Qed.

Lemma land_mask (x d : Z) : 0 <= d -> Z.land x (2 ^ d - 1) = x mod 2 ^ d.
Proof.
  intros Hd. rewrite <- Z.land_ones by assumption.
  now rewrite Z.ones_equiv, <- Z.sub_1_r.
Qed.

Section GrowerFacts.

Variable float : Type.
Variable one_half : float.
Variable fill_of : Z -> float -> option Z.

Let grower : Type := Grower.HashTableGrowerWithMaxLoadFactor float.

Lemma one_shifted_inv (degree cells : Z) :
  Grower.one_shifted degree = Some cells ->
  0 <= degree < 64 /\ cells = 2 ^ degree.
Proof.
  unfold Grower.one_shifted.
  destruct (Z.leb_spec 0 degree), (Z.ltb_spec degree 64); cbn [andb];
    try discriminate.
  intros [= <-]. split; [lia | apply Z.shiftl_1_l].
Qed.

Lemma one_shifted_some (degree : Z) :
  0 <= degree < 64 -> Grower.one_shifted degree = Some (2 ^ degree).
Proof.
  intros Hdegree. unfold Grower.one_shifted.
  destruct (Z.leb_spec 0 degree), (Z.ltb_spec degree 64); cbn [andb];
    try lia.
  now rewrite Z.shiftl_1_l.
Qed.

Lemma increaseSizeDegree_inv (delta : Z) (g g' : grower) :
  Grower.increaseSizeDegree float fill_of delta g = Some g' ->
  Grower.size_degree g' = Grower.add_UInt8 (Grower.size_degree g) delta
  /\ 0 <= Grower.size_degree g' < 64
  /\ Grower.precalculated_mask g' = 2 ^ Grower.size_degree g' - 1
  /\ fill_of (2 ^ Grower.size_degree g') (Grower.max_load_factor g)
     = Some (Grower.precalculated_max_fill g')
  /\ Grower.max_load_factor g' = Grower.max_load_factor g.
Proof.
  unfold Grower.increaseSizeDegree. cbv zeta.
  destruct (Grower.one_shifted
              (Grower.add_UInt8 (Grower.size_degree g) delta))
    as [cells |] eqn:Hcells; [| discriminate].
  apply one_shifted_inv in Hcells as [Hdegree ->].
  cbn [obind].
  destruct (fill_of _ (Grower.max_load_factor g)) as [max_fill |] eqn:Hfill;
    [| discriminate].
  cbn [obind]. intros [= <-]. cbn. repeat split; try lia. exact Hfill.
Qed.

(** X13: Every grower the class makes is consistent: the default one, the one
    built from a load factor, and whatever [increaseSizeDegree] or
    [increaseSize] return, whatever they were called on; then [bufSize()]
    is defined and the mask is [bufSize() - 1]. *)
Theorem grower_consistent :
  Grower.consistent (Grower.default_grower float one_half)
  /\ (forall f g,
        Grower.with_max_load_factor float one_half fill_of f = Some g ->
        Grower.consistent g /\ Grower.size_degree g = 8)
  /\ (forall delta g g',
        Grower.increaseSizeDegree float fill_of delta g = Some g' -> Grower.consistent g')
  /\ (forall g g', Grower.increaseSize float fill_of g = Some g' -> Grower.consistent g')
  /\ (forall g : grower,
        Grower.consistent g ->
        Grower.bufSize g = Some (Grower.precalculated_mask g + 1)).
Proof.
  split; [| split; [| split; [| split]]].
  - split; [cbn; unfold Grower.initial_size_degree; lia | reflexivity].
  - intros f g Hg. unfold Grower.with_max_load_factor in Hg.
    apply increaseSizeDegree_inv in Hg as (Hdegree & Hrange & Hmask & _).
    split; [now split | exact Hdegree].
  - intros delta g g' Hg.
    apply increaseSizeDegree_inv in Hg as (_ & Hrange & Hmask & _).
    now split.
  - intros g g' Hg. unfold Grower.increaseSize in Hg.
    apply increaseSizeDegree_inv in Hg as (_ & Hrange & Hmask & _).
    now split.
  - intros g [Hrange Hmask]. unfold Grower.bufSize.
    rewrite one_shifted_some by assumption. rewrite Hmask. f_equal. lia.
Qed.

(** X14: [place] maps every hash value to a cell of the buffer, the value
    modulo the buffer size; in particular a cell is placed on itself. *)
Theorem grower_place_in_buffer (g : grower) :
  Grower.consistent g ->
  exists cells,
    Grower.bufSize g = Some cells
    /\ 0 < cells
    /\ forall x,
         Grower.place g x = x mod cells
         /\ 0 <= Grower.place g x < cells
         /\ Grower.place g (Grower.place g x) = Grower.place g x.
Proof.
  intros [Hrange Hmask]. exists (2 ^ Grower.size_degree g).
  assert (Hpos : 0 < 2 ^ Grower.size_degree g)
    by (apply Z.pow_pos_nonneg; lia).
  split; [now apply one_shifted_some |]. split; [assumption |].
  intros x. unfold Grower.place. rewrite Hmask.
  rewrite !land_mask by lia.
  split; [reflexivity |].
  split; [now apply Z.mod_pos_bound |].
  apply Z.mod_small. now apply Z.mod_pos_bound.
Qed.

Lemma grower_next_mod (g : grower) (pos : Z) :
  Grower.consistent g ->
  Grower.next g pos = (pos + 1) mod 2 ^ Grower.size_degree g.
Proof.
  intros [Hrange Hmask]. unfold Grower.next. rewrite Hmask.
  rewrite land_mask by lia. apply wrap_mod_two_power. lia.
Qed.

Lemma grower_next_iter (g : grower) (pos : Z) (steps : nat) :
  Grower.consistent g ->
  0 <= pos < 2 ^ Grower.size_degree g ->
  Nat.iter steps (Grower.next g) pos
  = (pos + Z.of_nat steps) mod 2 ^ Grower.size_degree g.
Proof.
  intros Hg Hpos. induction steps as [| steps IH].
  - change (Nat.iter 0 (Grower.next g) pos) with pos.
    rewrite Z.add_0_r. symmetry. now apply Z.mod_small.
  - rewrite Nat.iter_succ, IH, grower_next_mod by assumption.
    rewrite Zplus_mod_idemp_l. f_equal. lia.
Qed.

(** X15: The collision resolution chain: [next] moves one cell forward and
    from the last cell of the buffer back to cell 0, so the chain that
    starts in any cell passes through every cell of the buffer and is
    back at its start after [bufSize()] steps. *)
Theorem grower_next_cycles (g : grower) (pos : Z) :
  Grower.consistent g ->
  0 <= pos < 2 ^ Grower.size_degree g ->
  Grower.next g pos
  = (if pos =? 2 ^ Grower.size_degree g - 1 then 0 else pos + 1)
  /\ (forall cell,
        0 <= cell < 2 ^ Grower.size_degree g ->
        exists steps,
          (Z.of_nat steps < 2 ^ Grower.size_degree g)
          /\ Nat.iter steps (Grower.next g) pos = cell)
  /\ Nat.iter (Z.to_nat (2 ^ Grower.size_degree g)) (Grower.next g) pos = pos.
Proof.
  intros Hg Hpos.
  set (cells := 2 ^ Grower.size_degree g) in *.
  split; [| split].
  - rewrite grower_next_mod by assumption. fold cells.
    destruct (Z.eqb_spec pos (cells - 1)) as [-> | Hne].
    + replace (cells - 1 + 1) with cells by lia. apply Z.mod_same. lia.
    + apply Z.mod_small. lia.
  - intros cell Hcell.
    exists (Z.to_nat ((cell - pos) mod cells)).
    pose proof (Z.mod_pos_bound (cell - pos) cells ltac:(lia)) as Hbound.
    split; [rewrite Z2Nat.id by lia; lia |].
    rewrite grower_next_iter by assumption. fold cells.
    rewrite Z2Nat.id by lia.
    rewrite Zplus_mod_idemp_r.
    replace (pos + (cell - pos)) with cell by lia.
    apply Z.mod_small. assumption.
  - rewrite grower_next_iter by assumption. fold cells.
    rewrite Z2Nat.id by lia.
    rewrite <- Zplus_mod_idemp_r, Z.mod_same, Z.add_0_r by lia.
    apply Z.mod_small. assumption.
Qed.

(** X16: [increaseSize] quadruples the buffer while the size degree is
    below 19 and doubles it from 19 on, keeping the load factor and
    storing as [precalculated_max_fill] the new buffer size times the load
    factor converted to [size_t], provided that conversion is defined;
    where it is not, and at degree 63, where the next buffer size is a
    shift by 64, the call has no defined result. *)
Theorem grower_increaseSize (g : grower) :
  Grower.consistent g ->
  (Grower.size_degree g < 19 ->
   forall max_fill,
     fill_of (4 * 2 ^ Grower.size_degree g) (Grower.max_load_factor g)
     = Some max_fill ->
     exists g',
       Grower.increaseSize float fill_of g = Some g'
       /\ Grower.size_degree g' = Grower.size_degree g + 2
       /\ Grower.bufSize g' = Some (4 * 2 ^ Grower.size_degree g)
       /\ Grower.precalculated_max_fill g' = max_fill)
  /\ (19 <= Grower.size_degree g < 63 ->
      forall max_fill,
        fill_of (2 * 2 ^ Grower.size_degree g) (Grower.max_load_factor g)
        = Some max_fill ->
        exists g',
          Grower.increaseSize float fill_of g = Some g'
          /\ Grower.size_degree g' = Grower.size_degree g + 1
          /\ Grower.bufSize g' = Some (2 * 2 ^ Grower.size_degree g)
          /\ Grower.precalculated_max_fill g' = max_fill)
  /\ (Grower.size_degree g = 63 -> Grower.increaseSize float fill_of g = None)
  /\ (Grower.size_degree g < 19 ->
      fill_of (4 * 2 ^ Grower.size_degree g) (Grower.max_load_factor g) = None ->
      Grower.increaseSize float fill_of g = None)
  /\ (19 <= Grower.size_degree g < 63 ->
      fill_of (2 * 2 ^ Grower.size_degree g) (Grower.max_load_factor g) = None ->
      Grower.increaseSize float fill_of g = None)
  /\ (forall g',
        Grower.increaseSize float fill_of g = Some g' ->
        Grower.max_load_factor g' = Grower.max_load_factor g
        /\ Grower.size_degree g < Grower.size_degree g').
Proof.
  intros [Hrange Hmask].
  assert (Hstep : forall delta,
            0 <= delta ->
            Grower.size_degree g + delta < 64 ->
            (forall max_fill,
               fill_of (2 ^ delta * 2 ^ Grower.size_degree g)
                 (Grower.max_load_factor g) = Some max_fill ->
               exists g',
                 Grower.increaseSizeDegree float fill_of delta g = Some g'
                 /\ Grower.size_degree g' = Grower.size_degree g + delta
                 /\ Grower.bufSize g'
                    = Some (2 ^ delta * 2 ^ Grower.size_degree g)
                 /\ Grower.precalculated_max_fill g' = max_fill)
            /\ (fill_of (2 ^ delta * 2 ^ Grower.size_degree g)
                  (Grower.max_load_factor g) = None ->
                Grower.increaseSizeDegree float fill_of delta g = None)).
  { intros delta Hdelta Hsum.
    assert (Hcells : 2 ^ (Grower.size_degree g + delta)
                     = 2 ^ delta * 2 ^ Grower.size_degree g)
      by (rewrite <- Z.pow_add_r by lia; f_equal; lia).
    unfold Grower.increaseSizeDegree, Grower.add_UInt8. cbv zeta.
    rewrite (Z.mod_small (Grower.size_degree g + delta) 256) by lia.
    rewrite one_shifted_some by lia. cbn [obind]. rewrite Hcells.
    split.
    - intros max_fill ->. cbn [obind].
      eexists. split; [reflexivity |]. cbn. split; [reflexivity |].
      split; [| reflexivity].
      unfold Grower.bufSize. cbn. rewrite one_shifted_some by lia.
      now rewrite Hcells.
    - intros ->. reflexivity. }
  unfold Grower.increaseSize, Grower.max_size_degree_quadratic.
  split; [| split; [| split; [| split; [| split]]]].
  - intros Hsmall.
    destruct (Z.leb_spec 19 (Grower.size_degree g)); [lia |].
    apply (Hstep 2); lia.
  - intros Hlarge.
    destruct (Z.leb_spec 19 (Grower.size_degree g)); [| lia].
    apply (Hstep 1); lia.
  - intros Hlast.
    destruct (Z.leb_spec 19 (Grower.size_degree g)); [| lia].
    unfold Grower.increaseSizeDegree, Grower.add_UInt8. cbv zeta.
    rewrite Hlast. reflexivity.
  - intros Hsmall.
    destruct (Z.leb_spec 19 (Grower.size_degree g)); [lia |].
    apply (Hstep 2); lia.
  - intros Hlarge.
    destruct (Z.leb_spec 19 (Grower.size_degree g)); [| lia].
    apply (Hstep 1); lia.
  - intros g' Hg'.
    pose proof (increaseSizeDegree_inv _ _ _ Hg')
      as (Hdegree & Hrange' & _ & _ & Hfactor).
    split; [assumption |].
    unfold Grower.add_UInt8 in Hdegree.
    destruct (Z.leb_spec 19 (Grower.size_degree g));
      rewrite Z.mod_small in Hdegree by lia; lia.
Qed.

(** X17: Growing keeps elements findable from their old cell: the cell a hash
    value gets in the grown buffer, reduced to the old buffer, is the cell
    it had. *)
Theorem grower_place_after_increaseSize (g g' : grower) (x : Z) :
  Grower.consistent g ->
  Grower.increaseSize float fill_of g = Some g' ->
  Grower.place g (Grower.place g' x) = Grower.place g x.
Proof.
  intros [Hrange Hmask] Hg'.
  unfold Grower.increaseSize in Hg'.
  pose proof (increaseSizeDegree_inv _ _ _ Hg')
    as (Hdegree & Hrange' & Hmask' & _).
  assert (Hgrow : Grower.size_degree g <= Grower.size_degree g').
  { unfold Grower.add_UInt8, Grower.max_size_degree_quadratic in Hdegree.
    destruct (Z.leb_spec 19 (Grower.size_degree g));
      rewrite Z.mod_small in Hdegree by lia; lia. }
  unfold Grower.place. rewrite Hmask, Hmask'.
  rewrite !land_mask by lia.
  apply Z.mod_mod_divide.
  exists (2 ^ (Grower.size_degree g' - Grower.size_degree g)).
  rewrite <- Z.pow_add_r by lia. f_equal. lia.
Qed.

End GrowerFacts.

Lemma grower_place_in_buffer_witness :
  exists cells,
    Grower.bufSize default_percent_grower = Some cells
    /\ 0 < cells
    /\ forall x,
         Grower.place default_percent_grower x = x mod cells
         /\ 0 <= Grower.place default_percent_grower x < cells
         /\ Grower.place default_percent_grower
              (Grower.place default_percent_grower x)
            = Grower.place default_percent_grower x.
Proof.
  apply (grower_place_in_buffer Z default_percent_grower).
  split; [cbn; unfold Grower.initial_size_degree; lia | reflexivity].
Defined.

Lemma grower_next_cycles_witness :
  Grower.next default_percent_grower 255 = 0
  /\ Nat.iter (Z.to_nat 256) (Grower.next default_percent_grower) 77 = 77.
Proof.
  assert (Hconsistent : Grower.consistent default_percent_grower)
    by (split; [cbn; unfold Grower.initial_size_degree; lia | reflexivity]).
  assert (Hpos : 0 <= 255 < 2 ^ Grower.size_degree default_percent_grower)
    by (cbn; unfold Grower.initial_size_degree; lia).
  assert (Hpos' : 0 <= 77 < 2 ^ Grower.size_degree default_percent_grower)
    by (cbn; unfold Grower.initial_size_degree; lia).
  split.
  - exact (proj1 (grower_next_cycles Z default_percent_grower 255
                    Hconsistent Hpos)).
  - exact (proj2 (proj2 (grower_next_cycles Z default_percent_grower 77
                           Hconsistent Hpos'))).
Defined.

Lemma grower_increaseSize_witness :
  exists g',
    Grower.increaseSize Z percent_fill default_percent_grower = Some g'
    /\ Grower.size_degree g' = 8 + 2
    /\ Grower.bufSize g' = Some (4 * 2 ^ 8)
    /\ Grower.precalculated_max_fill g' = 512.
Proof.
  apply (grower_increaseSize Z percent_fill default_percent_grower).
  - split; [cbn; unfold Grower.initial_size_degree; lia | reflexivity].
  - cbn. unfold Grower.initial_size_degree. lia.
  - reflexivity.
Defined.

Lemma grower_place_after_increaseSize_witness :
  exists g',
    Grower.increaseSize Z percent_fill default_percent_grower = Some g'
    /\ Grower.place g' 1000 = 1000
    /\ Grower.place default_percent_grower 1000 = 232
    /\ Grower.place default_percent_grower (Grower.place g' 1000)
       = Grower.place default_percent_grower 1000.
Proof.
  eexists. split; [reflexivity |]. split; [reflexivity |].
  split; [reflexivity |].
  apply (grower_place_after_increaseSize Z percent_fill
           default_percent_grower).
  - split; [cbn; unfold Grower.initial_size_degree; lia | reflexivity].
  - reflexivity.
Defined.

(** ** [transposeBits] on arrays of any other type *)

Section TransposeBitsFacts.

Variable A : Type.

Lemma to_ssize_small (x : Z) : x < 2 ^ 63 -> TransposeBits.to_ssize x = x.
Proof.
  intros Hx. unfold TransposeBits.to_ssize.
  destruct (Z.ltb_spec x (2 ^ 63)); [reflexivity | lia].
Qed.

(** [offset - 1] as the loop reads it: computed on [size_t], read back as
    [ssize_t], so that an offset of 0 gives -1. *)
Lemma to_ssize_pred (offset : Z) :
  0 <= offset < 2 ^ 63 ->
  TransposeBits.to_ssize (Size.wrap (offset - 1)) = offset - 1.
Proof.
  intros Hoffset.
  destruct (Z.eq_dec offset 0) as [-> | Hnz]; [reflexivity |].
  rewrite Size_wrap_small by (unfold Size.in_range, Size.modulus; lia).
  apply to_ssize_small. lia.
Qed.

Lemma insert_backwards_unfold
    (steps : nat) (src : list A) (src_index src_prev_offset : Z) (res : list A) :
  TransposeBits.insert_backwards steps src src_index src_prev_offset res
  = if src_index >=? TransposeBits.to_ssize src_prev_offset then
      match steps with
      | O => None
      | S steps' =>
          res' <-? TransposeBits.insertFrom res src (Size.wrap src_index) ;;
          TransposeBits.insert_backwards
            steps' src (src_index - 1) src_prev_offset res'
      end
    else Some res.
Proof. destruct steps; reflexivity. Qed.

(** The [while] loop copies one array, last element first. *)
Lemma insert_backwards_rev (array : list A) :
  forall (before after res : list A) (steps : nat),
    Z.of_nat (length before) + Z.of_nat (length array) < 2 ^ 63 ->
    (length array <= steps)%nat ->
    TransposeBits.insert_backwards steps (before ++ array ++ after)
      (Z.of_nat (length before) + Z.of_nat (length array) - 1)
      (Z.of_nat (length before)) res
    = Some (res ++ rev array).
Proof.
  induction array as [| x array IH] using rev_ind;
    intros before after res steps Hsize Hsteps.
  - rewrite insert_backwards_unfold, to_ssize_small by lia.
    cbn [length]. rewrite Z.add_0_r.
    destruct (Z.geb_spec (Z.of_nat (length before) - 1)
                (Z.of_nat (length before))); [lia |].
    cbn [rev]. now rewrite app_nil_r.
  - rewrite length_app in Hsize, Hsteps |- *. cbn [length] in *.
    rewrite insert_backwards_unfold, to_ssize_small by lia.
    destruct (Z.geb_spec
                (Z.of_nat (length before)
                 + Z.of_nat (length array + 1) - 1)
                (Z.of_nat (length before))); [| lia].
    destruct steps as [| steps]; [lia |].
    unfold TransposeBits.insertFrom.
    rewrite Size_wrap_small by (unfold Size.in_range, Size.modulus; lia).
    replace (Z.to_nat (Z.of_nat (length before)
                       + Z.of_nat (length array + 1) - 1))
      with (length before + length array)%nat by lia.
    rewrite nth_error_app2 by lia.
    replace (length before + length array - length before)%nat
      with (length array) by lia.
    rewrite <- app_assoc.
    rewrite nth_error_app2 by lia. rewrite Nat.sub_diag.
    cbn [app nth_error obind].
    replace (Z.of_nat (length before) + Z.of_nat (length array + 1) - 1 - 1)
      with (Z.of_nat (length before) + Z.of_nat (length array) - 1) by lia.
    rewrite (IH before (x :: after) (res ++ [x]) steps) by lia.
    rewrite rev_app_distr. cbn [rev app]. now rewrite <- app_assoc.
Qed.

Lemma executeGeneric_from_rev (arrays : list (list A)) :
  forall before res : list A,
    Z.of_nat (length (before ++ concat arrays)) < 2 ^ 63 ->
    TransposeBits.executeGeneric_from (before ++ concat arrays)
      (TransposeBits.offsets_from (Z.of_nat (length before)) arrays)
      (Z.of_nat (length before)) res
    = Some (res ++ concat (map (@rev A) arrays)).
Proof.
  induction arrays as [| array arrays IH]; intros before res Hsize.
  - cbn. now rewrite app_nil_r.
  - cbn [TransposeBits.offsets_from TransposeBits.executeGeneric_from
         concat map]. cbv zeta.
    cbn [concat] in Hsize. rewrite !length_app in Hsize.
    rewrite to_ssize_pred by lia. rewrite to_ssize_small by lia.
    replace (Z.to_nat (Z.of_nat (length before) + Z.of_nat (length array)
                       - 1 - Z.of_nat (length before) + 1))
      with (length array) by lia.
    rewrite insert_backwards_rev by lia. cbn [obind].
    replace (Z.of_nat (length before) + Z.of_nat (length array))
      with (Z.of_nat (length (before ++ array)))
      by (rewrite length_app; lia).
    rewrite (app_assoc before array (concat arrays)).
    rewrite IH by (rewrite <- app_assoc, !length_app; lia).
    now rewrite <- app_assoc.
Qed.

Lemma offsets_from_map_rev (arrays : list (list A)) :
  forall start,
    TransposeBits.offsets_from start (map (@rev A) arrays)
    = TransposeBits.offsets_from start arrays.
Proof.
  induction arrays as [| array arrays IH]; intros start; cbn; [reflexivity |].
  rewrite length_rev. now rewrite IH.
Qed.

Lemma length_concat_map_rev (arrays : list (list A)) :
  length (concat (map (@rev A) arrays)) = length (concat arrays).
Proof.
  induction arrays as [| array arrays IH]; cbn; [reflexivity |].
  now rewrite !length_app, length_rev, IH.
Qed.

(** X18: On a column of arrays [executeGeneric] reverses every array in its
    place: the result is the arrays, each back to front, in their order,
    so it has the length of the source and fits the source's offsets,
    which the result column shares. *)
Theorem executeGeneric_reverses_arrays (arrays : list (list A)) :
  Z.of_nat (length (concat arrays)) < 2 ^ 63 ->
  TransposeBits.executeGeneric (concat arrays)
    (TransposeBits.offsets_of arrays) []
  = Some (concat (map (@rev A) arrays))
  /\ length (concat (map (@rev A) arrays)) = length (concat arrays)
  /\ TransposeBits.offsets_of (map (@rev A) arrays)
     = TransposeBits.offsets_of arrays.
Proof.
  intros Hsize. split; [| split].
  - exact (executeGeneric_from_rev arrays [] [] Hsize).
  - apply length_concat_map_rev.
  - apply offsets_from_map_rev.
Qed.

(** X19: Applied twice, [executeGeneric] gives the column back. *)
Theorem executeGeneric_involutive (arrays : list (list A)) (once : list A) :
  Z.of_nat (length (concat arrays)) < 2 ^ 63 ->
  TransposeBits.executeGeneric (concat arrays)
    (TransposeBits.offsets_of arrays) [] = Some once ->
  TransposeBits.executeGeneric once (TransposeBits.offsets_of arrays) []
  = Some (concat arrays).
Proof.
  intros Hsize Honce.
  assert (Hfirst : TransposeBits.executeGeneric (concat arrays)
                     (TransposeBits.offsets_of arrays) []
                   = Some (concat (map (@rev A) arrays)))
    by exact (executeGeneric_from_rev arrays [] [] Hsize).
  rewrite Hfirst in Honce. injection Honce as <-.
  assert (Hsize' : Z.of_nat (length ([] ++ concat (map (@rev A) arrays)))
                   < 2 ^ 63)
    by (cbn [app]; rewrite length_concat_map_rev; exact Hsize).
  assert (Hsecond : TransposeBits.executeGeneric
                      (concat (map (@rev A) arrays))
                      (TransposeBits.offsets_of (map (@rev A) arrays)) []
                    = Some (concat (map (@rev A) (map (@rev A) arrays))))
    by exact (executeGeneric_from_rev (map (@rev A) arrays) [] [] Hsize').
  unfold TransposeBits.offsets_of in Hsecond |- *.
  rewrite offsets_from_map_rev in Hsecond. rewrite Hsecond.
  f_equal. rewrite map_map.
  rewrite (map_ext _ (fun array => array)) by (intros; apply rev_involutive).
  now rewrite map_id.
Qed.


End TransposeBitsFacts.

Lemma executeGeneric_reverses_arrays_witness :
  TransposeBits.executeGeneric [1; 2; 3; 4; 5] [3; 3; 5] []
  = Some [3; 2; 1; 5; 4].
Proof.
  apply (executeGeneric_reverses_arrays Z [[1; 2; 3]; []; [4; 5]]).
  cbn. lia.
Defined.

Lemma executeGeneric_involutive_witness :
  TransposeBits.executeGeneric [3; 2; 1; 5; 4] [3; 3; 5] []
  = Some [1; 2; 3; 4; 5].
Proof.
  apply (executeGeneric_involutive Z [[1; 2; 3]; []; [4; 5]] [3; 2; 1; 5; 4]);
    [cbn; lia | reflexivity].
Defined.


(** ** [transposeBits] on arrays of [Float32] and [Float64] *)

Lemma cast_int_small (x : Z) :
  - 2 ^ 31 <= x < 2 ^ 31 -> TransposeNumber.cast_int x = x.
Proof.
  intros Hx. unfold TransposeNumber.cast_int.
  rewrite Z.mod_small by lia. lia.
Qed.

Lemma int_result_some (x : Z) :
  - 2 ^ 31 <= x < 2 ^ 31 -> TransposeNumber.int_result x = Some x.
Proof.
  intros Hx. unfold TransposeNumber.int_result.
  destruct (Z.leb_spec (- 2 ^ 31) x), (Z.ltb_spec x (2 ^ 31)); cbn [andb];
    try lia; reflexivity.
Qed.

Lemma element_some (vec : list Z) (i : Z) :
  0 <= i < Z.of_nat (length vec) ->
  TransposeNumber.element vec i = Some (nth (Z.to_nat i) vec 0).
Proof.
  intros Hi. unfold TransposeNumber.element.
  destruct (Z.leb_spec 0 i); [| lia].
  apply nth_error_nth'. lia.
Qed.

Lemma length_store (vec : list Z) :
  forall i value, length (TransposeNumber.store vec i value) = length vec.
Proof.
  induction vec as [| x vec IH]; intros [| i] value; cbn; auto.
Qed.

Lemma nth_store (vec : list Z) :
  forall i value k,
    (i < length vec)%nat ->
    nth k (TransposeNumber.store vec i value) 0
    = if Nat.eqb k i then value else nth k vec 0.
Proof.
  induction vec as [| x vec IH]; intros i value k Hi; [cbn in Hi; lia |].
  destruct i as [| i], k as [| k]; cbn; try reflexivity.
  apply IH. cbn in Hi. lia.
Qed.

Lemma testbit_b2z (b : bool) (m : Z) :
  Z.testbit (Z.b2z b) m = b && (m =? 0).
Proof.
  destruct b; cbn [Z.b2z andb]; [| apply Z.bits_0].
  destruct m as [| m | m]; reflexivity.
Qed.

Section TransposeNumberFacts.

Variable numbits : Z.
Hypothesis numbits_range : 0 < numbits <= 64.

(** The bit the body of the [j] loop or-s into a cell. *)
Lemma testbit_or_shifted (tgt : Z) (bit : bool) (amount c : Z) :
  0 <= amount -> 0 <= c < numbits ->
  Z.testbit (Z.lor tgt (Z.shiftl (Z.b2z bit) amount mod 2 ^ 64) mod 2 ^ numbits) c
  = Z.testbit tgt c || (bit && (c =? amount)).
Proof.
  intros Hamount Hc.
  rewrite Z.mod_pow2_bits_low by lia.
  rewrite Z.lor_spec. f_equal.
  rewrite Z.mod_pow2_bits_low by lia.
  rewrite Z.shiftl_spec by lia.
  rewrite testbit_b2z. f_equal.
  destruct (Z.eqb_spec (c - amount) 0), (Z.eqb_spec c amount); lia || reflexivity.
Qed.

Lemma set_bit_accumulates
    (src_vec res_vec : list Z) (src_prev_offset array_size position j bound : Z) :
  0 <= src_prev_offset -> 0 <= array_size -> 0 <= position ->
  0 <= j < numbits ->
  position + j * array_size < 2 ^ 31 ->
  src_prev_offset + position < Z.of_nat (length src_vec) ->
  (position + j * array_size) / numbits < bound <= Z.of_nat (length res_vec) ->
  exists res_vec',
    TransposeNumber.set_bit numbits src_vec src_prev_offset array_size
      position j res_vec = Some res_vec'
    /\ TransposeNumber.accumulates numbits res_vec res_vec'
         (fun k c =>
            TransposeNumber.sets numbits src_vec src_prev_offset array_size
              k c position j)
         bound.
Proof.
  intros Hprev Hsize Hposition Hj Hint Hsrc Hidx.
  assert (Hproduct : 0 <= j * array_size) by nia.
  set (sum := position + j * array_size) in *.
  assert (Hcell : 0 <= sum / numbits) by (apply Z.div_pos; lia).
  pose proof (Z.mod_pos_bound sum numbits ltac:(lia)) as Hbit.
  unfold TransposeNumber.set_bit. cbv zeta.
  rewrite cast_int_small by lia.
  rewrite int_result_some by lia. cbn [obind].
  fold sum. rewrite int_result_some by lia. cbn [obind].
  rewrite Z.quot_div_nonneg, Z.rem_mod_nonneg by lia.
  rewrite element_some by lia. cbn [obind].
  rewrite element_some by lia. cbn [obind].
  unfold TransposeNumber.shift_left_64.
  destruct (Z.leb_spec 0 (numbits - 1 - sum mod numbits)); [| lia].
  destruct (Z.ltb_spec (numbits - 1 - sum mod numbits) 64); [| lia].
  cbn [andb obind]. eexists. split; [reflexivity |].
  split; [apply length_store |]. split.
  - intros k c Hc. rewrite nth_store by lia.
    unfold TransposeNumber.sets, TransposeNumber.target_cell,
      TransposeNumber.target_bit. fold sum.
    destruct (Nat.eqb_spec k (Z.to_nat (sum / numbits))) as [-> | Hk].
    + rewrite testbit_or_shifted by lia.
      rewrite Z2Nat.id by lia. rewrite Z.eqb_refl. cbn [andb].
      f_equal. rewrite andb_comm. f_equal. apply Z.eqb_sym.
    + destruct (Z.eqb_spec (sum / numbits) (Z.of_nat k)) as [E | _];
        [exfalso; apply Hk; lia |].
      cbn [andb]. now rewrite orb_false_r.
  - intros k Hk. rewrite nth_store by lia.
    destruct (Nat.eqb_spec k (Z.to_nat (sum / numbits))) as [-> | _];
      [lia | reflexivity].
Qed.

Lemma accumulates_refl (res : list Z) (bound : Z) :
  TransposeNumber.accumulates numbits res res (fun _ _ => false) bound.
Proof.
  split; [reflexivity |]. split; [| reflexivity].
  intros k c _. now rewrite orb_false_r.
Qed.

Lemma accumulates_trans
    (res res' res'' : list Z) (f f' g : nat -> Z -> bool) (bound : Z) :
  TransposeNumber.accumulates numbits res res' f bound ->
  TransposeNumber.accumulates numbits res' res'' f' bound ->
  (forall k c, g k c = f k c || f' k c) ->
  TransposeNumber.accumulates numbits res res'' g bound.
Proof.
  intros (Hlen & Hbits & Hrest) (Hlen' & Hbits' & Hrest') Hg.
  split; [congruence |]. split.
  - intros k c Hc. rewrite Hbits', Hbits, Hg by assumption.
    now rewrite orb_assoc.
  - intros k Hk. now rewrite Hrest', Hrest.
Qed.

(** A loop whose every pass sets bits sets the bits of all its passes. *)
Lemma for_each_accumulates
    {X : Type} (body : X -> list Z -> option (list Z))
    (f : X -> nat -> Z -> bool) (bound : Z) (size : nat) (xs : list X) :
  (forall x res,
     In x xs -> length res = size ->
     exists res',
       body x res = Some res'
       /\ TransposeNumber.accumulates numbits res res' (f x) bound) ->
  forall res,
    length res = size ->
    exists res',
      TransposeNumber.for_each xs body res = Some res'
      /\ TransposeNumber.accumulates numbits res res'
           (fun k c => existsb (fun x => f x k c) xs) bound.
Proof.
  induction xs as [| x xs IH]; intros Hbody res Hres.
  - exists res. split; [reflexivity | apply accumulates_refl].
  - destruct (Hbody x res (or_introl eq_refl) Hres) as (res1 & Hrun & Hacc).
    destruct (IH (fun y r Hy => Hbody y r (or_intror Hy)) res1)
      as (res2 & Hrun' & Hacc').
    { destruct Hacc as [Hlen _]. congruence. }
    exists res2. split.
    + cbn [TransposeNumber.for_each]. rewrite Hrun. exact Hrun'.
    + eapply accumulates_trans; [exact Hacc | exact Hacc' |].
      intros k c. reflexivity.
Qed.

Lemma In_counting (n x : Z) :
  In x (TransposeNumber.counting n) <-> 0 <= x < n.
Proof.
  unfold TransposeNumber.counting. rewrite in_map_iff. split.
  - intros (i & <- & Hi). apply in_seq in Hi. lia.
  - intros Hx. exists (Z.to_nat x). split; [lia |]. apply in_seq. lia.
Qed.

End TransposeNumberFacts.

Section TransposeNumberArrays.

Variable numbits : Z.
Hypothesis numbits_range : 0 < numbits <= 64.

Lemma transpose_array_accumulates
    (src_vec res_vec : list Z) (src_prev_offset offset : Z) :
  0 <= src_prev_offset <= offset ->
  offset <= Z.of_nat (length src_vec) ->
  length res_vec = length src_vec ->
  Z.of_nat (length src_vec) * numbits < 2 ^ 31 ->
  exists res_vec',
    TransposeNumber.transpose_array numbits src_vec offset
      (src_prev_offset, res_vec) = Some (offset, res_vec')
    /\ TransposeNumber.accumulates numbits res_vec res_vec'
         (TransposeNumber.array_sets numbits src_vec src_prev_offset
            (offset - src_prev_offset))
         (offset - src_prev_offset).
Proof.
  intros Hprev Hoffset Hres Hint.
  set (n := offset - src_prev_offset).
  assert (Hn : 0 <= n <= Z.of_nat (length src_vec)) by lia.
  assert (Hsmall : n < 2 ^ 31) by nia.
  unfold TransposeNumber.transpose_array. fold n.
  rewrite cast_int_small by lia.
  destruct (Z.eqb_spec offset src_prev_offset) as [Hsame | Hmore].
  - cbn [orb]. exists res_vec. split; [now rewrite Hsame |].
    replace n with 0 by lia. apply accumulates_refl.
  - destruct (Z.eqb_spec n 0) as [Hzero | Hnz]; [lia |]. cbn [orb].
    destruct (for_each_accumulates numbits
                (TransposeNumber.set_bits_of numbits src_vec
                   src_prev_offset n)
                (fun position k c =>
                   existsb
                     (TransposeNumber.sets numbits src_vec src_prev_offset n
                        k c position)
                     (TransposeNumber.counting numbits))
                n (length src_vec) (TransposeNumber.counting n))
      with (res := res_vec) as (res_vec' & Hrun & Hacc);
      [| assumption |].
    + intros position res Hposition Hlen.
      apply In_counting in Hposition.
      apply (for_each_accumulates numbits
               (TransposeNumber.set_bit numbits src_vec src_prev_offset n
                  position)
               (fun j k c =>
                  TransposeNumber.sets numbits src_vec src_prev_offset n
                    k c position j)
               n (length src_vec) (TransposeNumber.counting numbits));
        [| assumption].
      intros j res' Hj Hlen'. apply In_counting in Hj.
      assert (Hsum : position + j * n < numbits * n) by nia.
      apply set_bit_accumulates; try lia; try assumption.
      * nia.
      * split; [apply Z.div_lt_upper_bound; lia | lia].
    + exists res_vec'. split; [| exact Hacc].
      now rewrite Hrun.
Qed.

(** Which bit of which element reaches a given bit of a given cell, when
    the array is the whole column. *)
Lemma array_sets_transposed (src_vec : list Z) (n : Z) (k : nat) (b : Z) :
  0 <= Z.of_nat k < n -> 0 <= b < numbits ->
  TransposeNumber.array_sets numbits src_vec 0 n k (numbits - 1 - b)
  = Z.testbit
      (nth (Z.to_nat ((Z.of_nat k * numbits + b) mod n)) src_vec 0)
      ((Z.of_nat k * numbits + b) / n).
Proof.
  intros Hk Hb.
  set (p := Z.of_nat k * numbits + b).
  assert (Hp : 0 <= p < numbits * n) by (subst p; nia).
  apply eq_true_iff_eq. unfold TransposeNumber.array_sets.
  rewrite existsb_exists. split.
  - intros (position & Hposition & Hsets).
    apply existsb_exists in Hsets as (j & Hj & Hsets).
    apply In_counting in Hposition, Hj.
    unfold TransposeNumber.sets, TransposeNumber.target_cell,
      TransposeNumber.target_bit in Hsets.
    apply andb_true_iff in Hsets as [Hsets Hbit].
    apply andb_true_iff in Hsets as [Hcell Hwhich].
    apply Z.eqb_eq in Hcell, Hwhich.
    assert (Hsum : position + j * n = p).
    { subst p.
      rewrite (Z.div_mod (position + j * n) numbits) by lia.
      rewrite Hcell. lia. }
    rewrite <- Hsum.
    rewrite Z.mod_add, Z.div_add by lia.
    rewrite Z.mod_small, Z.div_small by lia.
    rewrite Z.add_0_l in Hbit |- *. exact Hbit.
  - intros Hbit.
    pose proof (Z.mod_pos_bound p n ltac:(lia)) as Hmod.
    assert (Hdiv : 0 <= p / n < numbits).
    { split; [apply Z.div_pos; lia | apply Z.div_lt_upper_bound; lia]. }
    exists (p mod n). split; [now apply In_counting |].
    apply existsb_exists. exists (p / n). split; [now apply In_counting |].
    unfold TransposeNumber.sets, TransposeNumber.target_cell,
      TransposeNumber.target_bit.
    replace (p mod n + p / n * n) with p
      by (rewrite (Z.div_mod p n) at 1 by lia; lia).
    rewrite Z.add_0_l, Hbit, andb_true_r.
    assert (Hcell : p / numbits = Z.of_nat k).
    { subst p. rewrite Z.div_add_l, Z.div_small by lia. lia. }
    assert (Hwhich : p mod numbits = b).
    { subst p. rewrite (Z.add_comm (Z.of_nat k * numbits) b).
      rewrite Z.mod_add by lia. apply Z.mod_small. lia. }
    rewrite Hcell, Hwhich, !Z.eqb_refl. reflexivity.
Qed.

(** X21: On a column that is one array, [executeNumber] transposes the bit
    matrix of the array into the result, or-ing it over what the result
    buffer held: read from the most significant bit of the first cell on,
    the result lists bit 0 of every element, then bit 1 of every element,
    and so on.  With a buffer of zeros the result is that transposition
    alone. *)
Theorem executeNumber_transposes (array res_vec : list Z) :
  length res_vec = length array ->
  Z.of_nat (length array) * numbits < 2 ^ 31 ->
  exists res_vec',
    TransposeNumber.executeNumber numbits array [Z.of_nat (length array)]
      res_vec = Some res_vec'
    /\ length res_vec' = length array
    /\ forall k b,
         (k < length array)%nat -> 0 <= b < numbits ->
         Z.testbit (nth k res_vec' 0) (numbits - 1 - b)
         = Z.testbit (nth k res_vec 0) (numbits - 1 - b)
           || Z.testbit
                (nth (Z.to_nat ((Z.of_nat k * numbits + b)
                                mod Z.of_nat (length array))) array 0)
                ((Z.of_nat k * numbits + b) / Z.of_nat (length array)).
Proof.
  intros Hres Hint.
  destruct (transpose_array_accumulates array res_vec 0
              (Z.of_nat (length array)))
    as (res_vec' & Hrun & Hlen & Hbits & _); try lia; try assumption.
  exists res_vec'. split; [| split].
  - unfold TransposeNumber.executeNumber.
    cbn [TransposeNumber.for_each]. rewrite Hrun. reflexivity.
  - congruence.
  - intros k b Hk Hb.
    rewrite Hbits by lia. f_equal.
    rewrite Z.sub_0_r. apply array_sets_transposed; lia.
Qed.



End TransposeNumberArrays.

Lemma executeNumber_transposes_witness :
  exists res_vec',
    TransposeNumber.executeNumber 32 [1; 2; 3] [3] [0; 0; 0] = Some res_vec'
    /\ length res_vec' = 3%nat
    /\ forall k b,
         (k < 3)%nat -> 0 <= b < 32 ->
         Z.testbit (nth k res_vec' 0) (32 - 1 - b)
         = Z.testbit (nth k [0; 0; 0] 0) (32 - 1 - b)
           || Z.testbit
                (nth (Z.to_nat ((Z.of_nat k * 32 + b) mod 3)) [1; 2; 3] 0)
                ((Z.of_nat k * 32 + b) / 3).
Proof.
  apply (executeNumber_transposes 32 ltac:(lia) [1; 2; 3] [0; 0; 0]);
    [reflexivity | cbn; lia].
Defined.


(** Two arrays of two [Float32] each: both are transposed into cells 0
    and 1, and cells 2 and 3 keep what the buffer held. *)
Example executeNumber_two_arrays :
  TransposeNumber.executeNumber 32 [1; 2; 3; 7] [2; 4] [0; 0; 5; 6]
  = Some [4093640704; 0; 5; 6].
Proof. reflexivity. Qed.
